(** * Consistent-hash task router (hard/01_distributed_worker.go)

    A shallow embedding of the hash ring ([ConsistentHash]), of the bounded
    task queue and of the dispatch loop ([WorkerManager]), followed by the
    properties of the router stated in the specification. *)

From Stdlib Require Import ZArith String Ascii List DecimalString Lia.
From stdpp Require Import gmap strings list sorting fin_maps.

Local Open Scope Z_scope.

(** ** hash/crc32 of the Go standard library

    [crc32.ChecksumIEEE] is [Update(0, IEEETable, data)].  The table entry
    [tab[i]] is what [simplePopulateTable] stores, and [simpleUpdate] folds
    the bytes through it; the slicing and hardware variants the package may
    pick compute the same checksum.  A [uint32] is a [Z] in [0, 2^32), a Go
    string is the sequence of its bytes. *)
Module crc32.

Definition IEEE : Z := 0xedb88320.

(** One round of the inner loop of [simplePopulateTable]. *)
Definition populate_round (crc : Z) : Z :=
  if Z.testbit crc 0 then Z.lxor (Z.shiftr crc 1) IEEE else Z.shiftr crc 1.

(** [tab[i]] for the IEEE polynomial. *)
Definition table_entry (i : Z) : Z :=
  Nat.iter 8 populate_round i.

(** [^crc] on 32 bits. *)
Definition complement (crc : Z) : Z := Z.lxor crc 0xffffffff.

Definition byte_of_ascii (c : ascii) : Z := Z.of_N (N_of_ascii c).

(** Body of the loop of [simpleUpdate]:
    [crc = tab[byte(crc)^v] ^ (crc >> 8)]. *)
Definition update_byte (crc : Z) (v : ascii) : Z :=
  Z.lxor (table_entry (Z.lxor (Z.land crc 0xff) (byte_of_ascii v)))
         (Z.shiftr crc 8).

Fixpoint update_loop (crc : Z) (p : string) : Z :=
  match p with
  | EmptyString => crc
  | String v p' => update_loop (update_byte crc v) p'
  end.

Definition simpleUpdate (crc : Z) (p : string) : Z :=
  complement (update_loop (complement crc) p).

Definition ChecksumIEEE (data : string) : Z := simpleUpdate 0 data.

End crc32.

(** ** sort.Search of the Go standard library

    [[
      i, j := 0, n
      for i < j {
        h := int(uint(i+j) >> 1)
        if !f(h) { i = h + 1 } else { j = h }
      }
      return i
    ]]
    The interval [j - i] shrinks at every turn, so [n] turns are enough. *)
Fixpoint search_loop (fuel : nat) (f : nat → bool) (i j : nat) : nat :=
  match fuel with
  | O => i
  | S fuel' =>
      if decide (i < j)%nat then
        let h := ((i + j) / 2)%nat in
        if negb (f h) then search_loop fuel' f (h + 1)%nat j
        else search_loop fuel' f i h
      else i
  end.

Definition Search (n : nat) (f : nat → bool) : nat := search_loop n f 0%nat n.

(** ** fmt.Sprintf("%s#%d", workerID, i) *)
Definition itoa (i : nat) : string := NilEmpty.string_of_uint (Nat.to_uint i).

Definition virtualNode (workerID : string) (i : nat) : string :=
  String.append workerID (String.append "#" (itoa i)).

(** ** Task and the Worker interface *)

(** [Payload] is an [interface{}] the router never looks into and [Created]
    a [time.Time]; a string and a number stand for them. *)
Record Task := {
  ID : string;
  Payload : string;
  Created : Z;
}.

(** The interface [Worker], as far as the router calls it.  [GetID] reads a
    field that is never assigned after construction; [IsHealthy] reads the
    worker's current state, which its owner may change at any time, so it
    takes the store [Σ] the worker lives in. *)
Class Worker (W Σ : Type) := {
  GetID : W → string;
  IsHealthy : Σ → W → bool;
}.

(** [*DistributedWorker]: the fields written once by [NewDistributedWorker]
    travel with the pointer, the fields guarded by [mu] live in the store
    under the pointer's address. *)
Record DistributedWorker := {
  id : string;
  processingTime : Z;
  addr : positive;
}.

Record WorkerState := {
  processedCount : Z;
  isHealthy : bool;
}.

Definition NewDistributedWorker (σ : gmap positive WorkerState)
    (id : string) (processingTime : Z) :
    DistributedWorker * gmap positive WorkerState :=
  let a := fresh (dom σ) in
  ({| id := id; processingTime := processingTime; addr := a |},
   <[a := {| processedCount := 0; isHealthy := true |}]> σ).

Definition SetHealthy (σ : gmap positive WorkerState)
    (w : DistributedWorker) (healthy : bool) : gmap positive WorkerState :=
  alter (λ s, {| processedCount := processedCount s; isHealthy := healthy |})
        (addr w) σ.

#[export] Instance DistributedWorker_Worker :
    Worker DistributedWorker (gmap positive WorkerState) := {
  GetID w := id w;
  IsHealthy σ w :=
    match σ !! addr w with
    | Some s => isHealthy s
    | None => false
    end;
}.

(** ** ConsistentHash *)

Record ConsistentHash (W : Type) := mkConsistentHash {
  replicas : Z;
  ring : gmap Z string;
  sortedKeys : list Z;
  workers : gmap string W;
}.
Arguments mkConsistentHash {W} _ _ _ _.
Arguments replicas {W} _.
Arguments ring {W} _.
Arguments sortedKeys {W} _.
Arguments workers {W} _.

(** What [GetWorker] does: it returns [(worker, nil)], where [worker] is the
    nil interface when [workers] has no entry, or [(nil, error)], or it
    panics on [sortedKeys[idx]]. *)
Inductive lookup_result (W : Type) :=
| Routed (worker : option W)
| NoWorkersAvailable
| IndexOutOfRange.
Arguments Routed {W} _.
Arguments NoWorkersAvailable {W}.
Arguments IndexOutOfRange {W}.

Definition hashFunction (data : string) : Z := crc32.ChecksumIEEE data.

(** [for j, key := range keys { if key == hash { remove index j; break } }] *)
Fixpoint remove_first (h : Z) (keys : list Z) : list Z :=
  match keys with
  | [] => []
  | key :: rest => if decide (key = h) then rest else key :: remove_first h rest
  end.

Section Ring.
Context {W Σ : Type} `{!Worker W Σ}.

Definition NewConsistentHash (replicas : Z) : ConsistentHash W :=
  mkConsistentHash replicas ∅ [] ∅.

(** Body of the loop of [AddWorker]. *)
Definition add_virtual_node (workerID : string)
    (ch : ConsistentHash W) (i : nat) : ConsistentHash W :=
  let h := hashFunction (virtualNode workerID i) in
  mkConsistentHash (replicas ch) (<[h := workerID]> (ring ch))
                   (sortedKeys ch ++ [h]) (workers ch).

(** [sort.Slice] with [less = sortedKeys[i] < sortedKeys[j]]: the ascending
    arrangement of the slice (there is only one, see [sorted_unique]). *)
Definition AddWorker (ch : ConsistentHash W) (worker : W) : ConsistentHash W :=
  let workerID := GetID worker in
  let ch1 := mkConsistentHash (replicas ch) (ring ch) (sortedKeys ch)
                              (<[workerID := worker]> (workers ch)) in
  let ch2 := foldl (add_virtual_node workerID) ch1
                   (seq 0 (Z.to_nat (replicas ch))) in
  mkConsistentHash (replicas ch2) (ring ch2)
                   (merge_sort Z.le (sortedKeys ch2)) (workers ch2).

(** Body of the loop of [RemoveWorker]. *)
Definition remove_virtual_node (workerID : string)
    (ch : ConsistentHash W) (i : nat) : ConsistentHash W :=
  let h := hashFunction (virtualNode workerID i) in
  mkConsistentHash (replicas ch) (delete h (ring ch))
                   (remove_first h (sortedKeys ch)) (workers ch).

Definition RemoveWorker (ch : ConsistentHash W) (workerID : string) :
    ConsistentHash W :=
  let ch1 := foldl (remove_virtual_node workerID) ch
                   (seq 0 (Z.to_nat (replicas ch))) in
  mkConsistentHash (replicas ch1) (ring ch1) (sortedKeys ch1)
                   (delete workerID (workers ch1)).

(** The closure handed to [sort.Search]: [sortedKeys[i] >= hash]. *)
Definition key_ge (keys : list Z) (h : Z) (i : nat) : bool :=
  match keys !! i with
  | Some key => bool_decide (h ≤ key)
  | None => false
  end.

Definition GetWorker (ch : ConsistentHash W) (taskID : string) :
    lookup_result W :=
  if decide (size (ring ch) = 0%nat) then NoWorkersAvailable
  else
    let h := hashFunction taskID in
    let idx := Search (length (sortedKeys ch)) (key_ge (sortedKeys ch) h) in
    let idx := if decide (idx = length (sortedKeys ch)) then 0%nat else idx in
    match sortedKeys ch !! idx with
    | None => IndexOutOfRange
    | Some key =>
        let workerID := default EmptyString (ring ch !! key) in
        Routed (workers ch !! workerID)
    end.

End Ring.

(** A history of the ring: the mutating calls made on it, oldest first. *)
Inductive ring_op (W : Type) :=
| OpAdd (worker : W)
| OpRemove (workerID : string).
Arguments OpAdd {W} _.
Arguments OpRemove {W} _.

Section History.
Context {W Σ : Type} `{!Worker W Σ}.

Definition apply_op (ch : ConsistentHash W) (op : ring_op W) : ConsistentHash W :=
  match op with
  | OpAdd worker => AddWorker ch worker
  | OpRemove workerID => RemoveWorker ch workerID
  end.

Definition run_ops (ch : ConsistentHash W) (ops : list (ring_op W)) :
    ConsistentHash W :=
  foldl apply_op ch ops.

End History.

(** ** WorkerManager *)

(** A buffered channel [make(chan A, cap)]: the values waiting in it, oldest
    first, and its capacity. *)
Record chan (A : Type) := mkChan {
  chan_buf : list A;
  chan_cap : nat;
}.
Arguments mkChan {A} _ _.
Arguments chan_buf {A} _.
Arguments chan_cap {A} _.

(** [select { case c <- x: ...; default: ... }] with no receiver parked on
    [c]: the send goes through when the buffer has room. *)
Definition try_send {A} (c : chan A) (x : A) : option (chan A) :=
  if decide (length (chan_buf c) < chan_cap c)%nat
  then Some (mkChan (chan_buf c ++ [x]) (chan_cap c))
  else None.

(** [x := <-c] when a value is waiting. *)
Definition recv {A} (c : chan A) : option (A * chan A) :=
  match chan_buf c with
  | [] => None
  | x :: rest => Some (x, mkChan rest (chan_cap c))
  end.

Record WorkerManager (W : Type) := mkWorkerManager {
  hash : ConsistentHash W;
  taskChan : chan Task;
  stopChan : bool;  (* closed? *)
}.
Arguments mkWorkerManager {W} _ _ _.
Arguments hash {W} _.
Arguments taskChan {W} _.
Arguments stopChan {W} _.

(** What one turn of the dispatch loop does with the task it received. *)
Inductive dispatch (W : Type) :=
| LookupFailed (err : string)          (* printed, [continue] *)
| Unhealthy (workerID taskID : string) (* printed, [continue] *)
| Spawned (worker : W) (task : Task)   (* [go func(w, t) { w.ProcessTask(t) }] *)
| Crashed.                             (* panic: method call on a nil Worker,
                                          or [GetWorker] panicked *)
Arguments LookupFailed {W} _.
Arguments Unhealthy {W} _ _.
Arguments Spawned {W} _ _.
Arguments Crashed {W}.

Section Manager.
Context {W Σ : Type} `{!Worker W Σ}.

Definition NewWorkerManager (replicas : Z) : WorkerManager W :=
  mkWorkerManager (NewConsistentHash replicas) (mkChan [] 100) false.

Definition SubmitTask (wm : WorkerManager W) (task : Task) :
    option string * WorkerManager W :=
  match try_send (taskChan wm) task with
  | Some c => (None, mkWorkerManager (hash wm) c (stopChan wm))
  | None => (Some "task queue is full"%string, wm)
  end.

(** The branch [case task := <-wm.taskChan] of [taskProcessor], with the
    workers' state [σ] as it is when the turn runs. *)
Definition route (σ : Σ) (ch : ConsistentHash W) (task : Task) : dispatch W :=
  match GetWorker ch (ID task) with
  | NoWorkersAvailable => LookupFailed "no workers available"
  | IndexOutOfRange => Crashed
  | Routed None => Crashed
  | Routed (Some worker) =>
      if negb (IsHealthy σ worker) then Unhealthy (GetID worker) (ID task)
      else Spawned worker task
  end.

(** One turn of the loop of [taskProcessor] taking the task branch; [None]
    when no task is waiting. *)
Definition taskProcessor_turn (σ : Σ) (wm : WorkerManager W) :
    option (dispatch W * WorkerManager W) :=
  match recv (taskChan wm) with
  | None => None
  | Some (task, c) =>
      Some (route σ (hash wm) task, mkWorkerManager (hash wm) c (stopChan wm))
  end.

(** The loop of [taskProcessor] over the tasks waiting in the queue.
    [select] takes the case that is ready and either of them when both are:
    a task is waiting and [stopChan] is closed.  [pick n] says whether the
    [n]-th [select] from here takes the task branch in that situation.  The
    run ends when the loop returns through [case <-wm.stopChan], when no
    task is left (the loop then returns if [stopChan] is closed and parks
    in [select] if it is not), or when a turn panics.  Returns what each
    turn did and the manager it leaves. *)
Fixpoint taskProcessor_loop (fuel : nat) (pick : nat → bool) (σ : Σ)
    (wm : WorkerManager W) : list (dispatch W) * WorkerManager W :=
  match fuel with
  | O => ([], wm)
  | S fuel' =>
      match taskProcessor_turn σ wm with
      | None => ([], wm)
      | Some (d, wm') =>
          if stopChan wm && negb (pick 0%nat) then ([], wm)
          else
            match d with
            | Crashed => ([Crashed], wm')
            | _ =>
                let '(ds, wm'') :=
                  taskProcessor_loop fuel' (λ n, pick (S n)) σ wm' in
                (d :: ds, wm'')
            end
      end
  end.

Definition taskProcessor (pick : nat → bool) (σ : Σ) (wm : WorkerManager W) :
    list (dispatch W) * WorkerManager W :=
  taskProcessor_loop (length (chan_buf (taskChan wm))) pick σ wm.

End Manager.

(** Calls on the manager that leave the ring alone: a submission, or a turn
    of the dispatch loop under some state of the workers. *)
Inductive manager_op (Σ : Type) :=
| MSubmit (task : Task)
| MTurn (σ : Σ).
Arguments MSubmit {Σ} _.
Arguments MTurn {Σ} _.

Section ManagerRuns.
Context {W Σ : Type} `{!Worker W Σ}.

Definition apply_manager_op (wm : WorkerManager W) (op : manager_op Σ) :
    WorkerManager W :=
  match op with
  | MSubmit task => (SubmitTask wm task).2
  | MTurn σ =>
      match taskProcessor_turn σ wm with
      | Some (_, wm') => wm'
      | None => wm
      end
  end.

(** [SubmitTask] on each task in turn: the errors returned, in order, and
    the manager left. *)
Fixpoint submit_all (wm : WorkerManager W) (tasks : list Task) :
    list (option string) * WorkerManager W :=
  match tasks with
  | [] => ([], wm)
  | task :: tasks' =>
      let '(err, wm') := SubmitTask wm task in
      let '(errs, wm'') := submit_all wm' tasks' in
      (err :: errs, wm'')
  end.

End ManagerRuns.

(** ** The ring as the specification describes it *)

(** The virtual-node hashes of a worker: [hash(workerID#i)] for
    [i] in [0, replicas). *)
Definition vnode_hashes (replicas : Z) (workerID : string) : list Z :=
  (λ i, hashFunction (virtualNode workerID i)) <$> seq 0 (Z.to_nat replicas).

(** The keys met when walking the ring clockwise from position [h]: the keys
    at or after [h] in ascending order, then the keys before [h]. *)
Definition clockwise (keys : list Z) (h : Z) : list Z :=
  filter (λ key, h ≤ key) keys ++ filter (λ key, key < h) keys.

(** The three loops of [AddWorker] and [RemoveWorker], each on the field it
    updates, over the hashes the loop goes through. *)
Definition insert_all (workerID : string) (hs : list Z) (m : gmap Z string) :
    gmap Z string :=
  foldl (λ m h, <[h := workerID]> m) m hs.

Definition delete_all (hs : list Z) (m : gmap Z string) : gmap Z string :=
  foldl (λ m h, delete h m) m hs.

Definition remove_all (hs : list Z) (keys : list Z) : list Z :=
  foldl (λ keys h, remove_first h keys) keys hs.

(** What holds of the ring after any history. *)
Record ring_inv {W Σ : Type} `{!Worker W Σ} (ch : ConsistentHash W) : Prop := {
  inv_sorted : StronglySorted Z.le (sortedKeys ch);
  inv_ring : ∀ key workerID, ring ch !! key = Some workerID →
    key ∈ sortedKeys ch ∧ key ∈ vnode_hashes (replicas ch) workerID ∧
    is_Some (workers ch !! workerID);
  inv_workers : ∀ workerID worker,
    workers ch !! workerID = Some worker → GetID worker = workerID;
}.

(** A history in which every [AddWorker] brings [replicas] hashes that are
    pairwise distinct and not yet in the key list: no worker is added while
    it is registered, and no two virtual nodes share a hash. *)
Fixpoint fresh_adds {W Σ : Type} `{!Worker W Σ}
    (ch : ConsistentHash W) (ops : list (ring_op W)) : Prop :=
  match ops with
  | [] => True
  | op :: ops' =>
      match op with
      | OpAdd worker =>
          let hs := vnode_hashes (replicas ch) (GetID worker) in
          NoDup hs ∧ Forall (λ h, h ∉ sortedKeys ch) hs
      | OpRemove _ => True
      end ∧ fresh_adds (apply_op ch op) ops'
  end.

(** The hashes of all virtual nodes of a list of workers. *)
Definition all_hashes {W Σ : Type} `{!Worker W Σ}
    (replicas : Z) (ws : list W) : list Z :=
  ws ≫= (λ w, vnode_hashes replicas (GetID w)).

(** The first virtual node met clockwise from [h] on the ring of [ch] that
    does not belong to [workerID]. *)
Definition next_clockwise_not {W : Type} (ch : ConsistentHash W)
    (workerID : string) (h : Z) : option Z :=
  head (filter (λ key, ring ch !! key ≠ Some workerID)
               (clockwise (sortedKeys ch) h)).

(** ** The workers of [main] *)

Definition store1 := NewDistributedWorker ∅ "worker-1" 100.
Definition worker1 : DistributedWorker := store1.1.
Definition store2 := NewDistributedWorker store1.2 "worker-2" 200.
Definition worker2 : DistributedWorker := store2.1.

(** The ring of [main] with its first two workers, two tasks of [main], a
    manager holding them with a full queue behind, and the workers' state
    after [SetHealthy(false)] on worker-2. *)
Definition ring12 : ConsistentHash DistributedWorker :=
  foldl AddWorker (NewConsistentHash 3) [worker1; worker2].

Definition task01 : Task := {| ID := "task-01"; Payload := "1"; Created := 0 |}.
Definition task04 : Task := {| ID := "task-04"; Payload := "4"; Created := 0 |}.

Definition full_manager : WorkerManager DistributedWorker :=
  mkWorkerManager ring12 (mkChan (task04 :: replicate 99 task01) 100) false.

Definition store_sick : gmap positive WorkerState :=
  SetHealthy store2.2 worker2 false.

(** ** The methods of DistributedWorker *)

(** An [int64] after an addition: the sum wrapped into [-2^63, 2^63). *)
Definition wrap_int64 (z : Z) : Z := (z + 2 ^ 63) mod 2 ^ 64 - 2 ^ 63.

(** [ProcessTask], without the printing and the sleep: under [mu], an
    unhealthy worker returns the error and a healthy one counts the task.
    A worker that is not in the store reads as unhealthy, as in
    [IsHealthy]. *)
Definition ProcessTask (σ : gmap positive WorkerState)
    (w : DistributedWorker) (task : Task) :
    option string * gmap positive WorkerState :=
  match σ !! addr w with
  | Some s =>
      if negb (isHealthy s)
      then (Some (String.append "worker "
                    (String.append (id w) " is not healthy")), σ)
      else (None,
            <[addr w := {| processedCount := wrap_int64 (processedCount s + 1);
                           isHealthy := isHealthy s |}]> σ)
  | None =>
      (Some (String.append "worker " (String.append (id w) " is not healthy")),
       σ)
  end.

(** The calls made on one worker by its owner and by the dispatcher. *)
Inductive worker_call :=
| CallProcessTask (task : Task)
| CallSetHealthy (healthy : bool).

(** The calls run in order: the errors that [ProcessTask] returned, oldest
    first, and the store left. *)
Fixpoint run_calls (σ : gmap positive WorkerState) (w : DistributedWorker)
    (calls : list worker_call) :
    list (option string) * gmap positive WorkerState :=
  match calls with
  | [] => ([], σ)
  | CallProcessTask task :: calls' =>
      let '(err, σ') := ProcessTask σ w task in
      let '(errs, σ'') := run_calls σ' w calls' in
      (err :: errs, σ'')
  | CallSetHealthy healthy :: calls' => run_calls (SetHealthy σ w healthy) w calls'
  end.

(** The number of calls that returned a nil error. *)
Definition count_nil (errs : list (option string)) : nat :=
  length (filter (λ err, err = None) errs).

(** ** GetAllWorkers and GetStats *)

(** The part of the interface [Worker] that only [GetStats] calls.  The
    load is a [float64]; its type is left open. *)
Class WorkerMetrics (W Σ F : Type) := {
  GetProcessedCount : Σ → W → Z;
  GetLoad : Σ → W → F;
}.

(** [float64(processingTime) / float64(time.Second)], as its two operands. *)
Record load_quotient := {
  load_num : Z;
  load_den : Z;
}.

#[export] Instance DistributedWorker_WorkerMetrics :
    WorkerMetrics DistributedWorker (gmap positive WorkerState) load_quotient := {
  GetProcessedCount σ w :=
    match σ !! addr w with
    | Some s => processedCount s
    | None => 0
    end;
  GetLoad σ w := {| load_num := processingTime w; load_den := 1000000000 |};
}.

(** The values of the [map[string]interface{}] that [GetStats] returns: the
    map it builds for a worker, and the map it stores under ["total"]. *)
Inductive stats_value (F : Type) :=
| WorkerStats (processed : Z) (healthy : bool) (load : F)
| TotalStats (workers healthy_workers total_processed : Z).
Arguments WorkerStats {F} _ _ _.
Arguments TotalStats {F} _ _ _.

Section Stats.
Context {W Σ F : Type} `{!Worker W Σ, !WorkerMetrics W Σ F}.

(** [for _, worker := range ch.workers]: Go leaves the order of the range
    over a map open; the order of [map_to_list] stands for it. *)
Definition GetAllWorkers (ch : ConsistentHash W) : list W :=
  (map_to_list (workers ch)).*2.

(** Body of the loop of [GetStats], on [stats], [totalProcessed] and
    [healthyCount]. *)
Definition stats_step (σ : Σ) (acc : gmap string (stats_value F) * Z * Z)
    (worker : W) : gmap string (stats_value F) * Z * Z :=
  let '(stats, totalProcessed, healthyCount) := acc in
  (<[GetID worker := WorkerStats (GetProcessedCount σ worker)
                                 (IsHealthy σ worker) (GetLoad σ worker)]> stats,
   wrap_int64 (totalProcessed + GetProcessedCount σ worker),
   if IsHealthy σ worker then healthyCount + 1 else healthyCount).

(** [GetStats] on the slice that [GetAllWorkers] returned. *)
Definition GetStats_of (σ : Σ) (all : list W) : gmap string (stats_value F) :=
  let '(stats, totalProcessed, healthyCount) :=
    foldl (stats_step σ) (∅, 0, 0) all in
  <["total"%string := TotalStats (Z.of_nat (length all)) healthyCount
                                 totalProcessed]> stats.

Definition GetStats (σ : Σ) (wm : WorkerManager W) :
    gmap string (stats_value F) :=
  GetStats_of σ (GetAllWorkers (hash wm)).

End Stats.

(** ** The load balancer that follows in the same file *)

Module balancer.

(** The struct [Server], as the strategies read it when [Select] runs. *)
Record Server := mkServer {
  ID : Z;
  Address : string;
  Weight : Z;
  Active : Z;
  Total : Z;
  Failed : Z;
  Healthy : bool;
}.

#[export] Instance Server_eq_dec : EqDecision Server.
Proof. solve_decision. Defined.

(** What a [Select] that indexes a slice does: it returns a server, or nil,
    or the index is out of range. *)
Inductive selection :=
| Selected (server : Server)
| NoServer
| IndexOutOfRange.

(** [RoundRobinStrategy.Select] on the counter [rr.current]; returns the
    counter it leaves.  [%] on [int64] truncates towards zero. *)
Definition RoundRobinStrategy_Select (current : Z) (servers : list Server) :
    selection * Z :=
  if decide (length servers = 0%nat) then (NoServer, current)
  else
    let healthyServers := filter (λ server, Healthy server = true) servers in
    if decide (length healthyServers = 0%nat) then (NoServer, current)
    else
      let current' := wrap_int64 (current + 1) in
      let index := Z.rem current' (Z.of_nat (length healthyServers)) in
      (if decide (0 ≤ index) then
         match healthyServers !! Z.to_nat index with
         | Some server => Selected server
         | None => IndexOutOfRange
         end
       else IndexOutOfRange,
       current').

(** [n] calls of [Select] in a row on the same servers. *)
Fixpoint RoundRobin_calls (n : nat) (current : Z) (servers : list Server) :
    list selection * Z :=
  match n with
  | O => ([], current)
  | S n' =>
      let '(sel, current') := RoundRobinStrategy_Select current servers in
      let '(sels, current'') := RoundRobin_calls n' current' servers in
      (sel :: sels, current'')
  end.

(** Body of the loop of [LeastConnectionsStrategy.Select], on [selected]
    and [minConnections]. *)
Definition least_step (acc : option Server * Z) (server : Server) :
    option Server * Z :=
  let '(selected, minConnections) := acc in
  if negb (Healthy server) then acc
  else
    let active := Active server in
    if decide (minConnections = -1 ∨ active < minConnections)
    then (Some server, active)
    else acc.

Definition LeastConnectionsStrategy_Select (servers : list Server) :
    option Server :=
  if decide (length servers = 0%nat) then None
  else (foldl least_step (None, -1) servers).1.

(** [LoadBalancer.AddServer] and [LoadBalancer.RemoveServer] on the slice
    [lb.servers]. *)
Definition AddServer (servers : list Server) (server : Server) : list Server :=
  servers ++ [server].

Fixpoint RemoveServer (servers : list Server) (serverID : Z) : list Server :=
  match servers with
  | [] => []
  | server :: rest =>
      if decide (ID server = serverID) then rest
      else server :: RemoveServer rest serverID
  end.

(** [WeightedRoundRobinStrategy]: the two maps, keyed by server ID.  An
    [int] is taken to be 64 bits wide, as on the platforms with 64-bit
    words; reading a map at a missing key gives 0. *)
Record WeightedRoundRobinStrategy := mkWeightedRoundRobinStrategy {
  weights : gmap Z Z;
  current : gmap Z Z;
}.

Definition NewWeightedRoundRobinStrategy : WeightedRoundRobinStrategy :=
  mkWeightedRoundRobinStrategy ∅ ∅.

(** Body of the first loop of [WeightedRoundRobinStrategy.Select]. *)
Definition wrr_init (wrr : WeightedRoundRobinStrategy) (server : Server) :
    WeightedRoundRobinStrategy :=
  if decide (is_Some (weights wrr !! ID server)) then wrr
  else mkWeightedRoundRobinStrategy
         (<[ID server := Weight server]> (weights wrr))
         (<[ID server := 0]> (current wrr)).

(** The strategy after the first loop. *)
Definition wrr_prepare (wrr : WeightedRoundRobinStrategy)
    (servers : list Server) : WeightedRoundRobinStrategy :=
  foldl wrr_init wrr servers.

(** What the second loop carries: [wrr.current], [selected], [maxWeight]
    and [totalWeight]. *)
Record wrr_loop := mkWrrLoop {
  loop_current : gmap Z Z;
  loop_selected : option Server;
  loop_maxWeight : Z;
  loop_totalWeight : Z;
}.

(** Body of the second loop. *)
Definition wrr_step (weights : gmap Z Z) (st : wrr_loop) (server : Server) :
    wrr_loop :=
  if negb (Healthy server) then st
  else
    let weight := default 0 (weights !! ID server) in
    let c := wrap_int64 (default 0 (loop_current st !! ID server) + weight) in
    let current' := <[ID server := c]> (loop_current st) in
    let total' := wrap_int64 (loop_totalWeight st + weight) in
    if decide (loop_maxWeight st < c)
    then mkWrrLoop current' (Some server) c total'
    else mkWrrLoop current' (loop_selected st) (loop_maxWeight st) total'.

Definition WeightedRoundRobinStrategy_Select
    (wrr : WeightedRoundRobinStrategy) (servers : list Server) :
    option Server * WeightedRoundRobinStrategy :=
  if decide (length servers = 0%nat) then (None, wrr)
  else
    let wrr1 := wrr_prepare wrr servers in
    let st := foldl (wrr_step (weights wrr1))
                    (mkWrrLoop (current wrr1) None (-1) 0) servers in
    match loop_selected st with
    | Some selected =>
        (Some selected,
         mkWeightedRoundRobinStrategy (weights wrr1)
           (<[ID selected :=
                wrap_int64 (default 0 (loop_current st !! ID selected)
                            - loop_totalWeight st)]> (loop_current st)))
    | None =>
        (None, mkWeightedRoundRobinStrategy (weights wrr1) (loop_current st))
    end.

(** The current weight a healthy server has once the second loop has added
    its weight, and the total weight the loop adds up. *)
Definition wrr_score (wrr1 : WeightedRoundRobinStrategy) (server : Server) : Z :=
  wrap_int64 (default 0 (current wrr1 !! ID server)
              + default 0 (weights wrr1 !! ID server)).

Definition wrr_total (wrr1 : WeightedRoundRobinStrategy)
    (servers : list Server) : Z :=
  foldl (λ t server, wrap_int64 (t + default 0 (weights wrr1 !! ID server))) 0
        (filter (λ server, Healthy server = true) servers).

(** What holds in the second loop after the servers [seen]. *)
Record wrr_inv (wrr1 : WeightedRoundRobinStrategy) (seen : list Server)
    (st : wrr_loop) : Prop := {
  wrr_inv_current : ∀ server,
    server ∈ seen → Healthy server = true →
    loop_current st !! ID server = Some (wrr_score wrr1 server);
  wrr_inv_other : ∀ serverID,
    serverID ∉ ID <$> filter (λ server, Healthy server = true) seen →
    loop_current st !! serverID = current wrr1 !! serverID;
  wrr_inv_total : loop_totalWeight st = wrr_total wrr1 seen;
  wrr_inv_selected :
    match loop_selected st with
    | Some selected =>
        loop_maxWeight st = wrr_score wrr1 selected ∧
        selected ∈ seen ∧ Healthy selected = true ∧
        -1 < wrr_score wrr1 selected ∧
        ∀ server, server ∈ seen → Healthy server = true →
                  wrr_score wrr1 server ≤ wrr_score wrr1 selected
    | None =>
        loop_maxWeight st = -1 ∧
        ∀ server, server ∈ seen → Healthy server = true →
                  wrr_score wrr1 server ≤ -1
    end;
}.

Definition NewServer (id : Z) (address : string) (weight : Z) : Server :=
  mkServer id address weight 0 0 0 true.

(** The servers of [main]; the third one marked unhealthy, the second one
    with five requests in flight. *)
Definition servers_of_main : list Server :=
  [NewServer 1 "192.168.1.1:8080" 3;
   mkServer 2 "192.168.1.2:8080" 2 5 0 0 true;
   mkServer 3 "192.168.1.3:8080" 1 0 0 0 false;
   NewServer 4 "192.168.1.4:8080" 4].

End balancer.

(** ** Sanity checks of the embedding *)

Example crc32_check_value : crc32.ChecksumIEEE "123456789" = 0xcbf43926.
Proof. reflexivity. Qed.

Example virtualNode_10 : virtualNode "worker-1" 10 = "worker-1#10"%string.
Proof. reflexivity. Qed.

(** ** Facts about [sort.Search] *)

Section SearchFacts.
Variable f : nat → bool.
Variable n : nat.
Hypothesis f_mono :
  ∀ a b, (a ≤ b)%nat → (b < n)%nat → f a = true → f b = true.

Lemma search_loop_spec fuel i j :
  (j - i ≤ fuel)%nat → (i ≤ j)%nat → (j ≤ n)%nat →
  (∀ k, (k < i)%nat → f k = false) →
  (∀ k, (j ≤ k)%nat → (k < n)%nat → f k = true) →
  let r := search_loop fuel f i j in
  (r ≤ n)%nat ∧ (∀ k, (k < r)%nat → f k = false) ∧
  (∀ k, (r ≤ k)%nat → (k < n)%nat → f k = true).
Proof.
  revert i j. induction fuel as [|fuel IH]; intros i j Hfuel Hij Hjn Hlo Hhi;
    cbn [search_loop].
  - assert (i = j) as -> by lia. auto.
  - destruct (decide (i < j)%nat) as [Hlt|Hge].
    + pose proof (Nat.div_mod_eq (i + j) 2) as Hdm.
      pose proof (Nat.mod_upper_bound (i + j) 2 ltac:(lia)) as Hmod.
      set (h := ((i + j) / 2)%nat) in *.
      assert (i ≤ h < j)%nat as [Hih Hhj] by lia.
      destruct (f h) eqn:Hfh; cbn [negb].
      * apply IH; try lia; auto.
        intros k Hk Hkn. apply (f_mono h k); auto with lia.
      * apply IH; try lia; auto.
        intros k Hk. destruct (f k) eqn:Hfk; auto.
        rewrite (f_mono k h) in Hfh; auto with lia.
    + assert (i = j) as -> by lia. auto.
Qed.

Lemma Search_spec :
  let r := Search n f in
  (r ≤ n)%nat ∧ (∀ k, (k < r)%nat → f k = false) ∧
  (∀ k, (r ≤ k)%nat → (k < n)%nat → f k = true).
Proof. apply search_loop_spec; auto with lia. Qed.

End SearchFacts.

(** ** Facts about sorted key lists *)

Lemma StronglySorted_lookup (keys : list Z) i j x y :
  StronglySorted Z.le keys → (i ≤ j)%nat →
  keys !! i = Some x → keys !! j = Some y → x ≤ y.
Proof.
  intros Hs. revert i j. induction Hs as [|a l Hs IH Hall]; intros i j Hij Hi Hj.
  - by rewrite lookup_nil in Hi.
  - destruct i as [|i], j as [|j]; simplify_eq/=; try lia.
    + rewrite Forall_forall in Hall. apply Hall.
      eapply list_elem_of_lookup_2; eauto.
    + apply (IH i j); auto with lia.
Qed.

Lemma key_ge_mono (keys : list Z) h a b :
  StronglySorted Z.le keys → (a ≤ b)%nat → (b < length keys)%nat →
  key_ge keys h a = true → key_ge keys h b = true.
Proof.
  intros Hs Hab Hb. unfold key_ge.
  destruct (keys !! a) as [x|] eqn:Ha; [|done].
  destruct (lookup_lt_is_Some_2 keys b Hb) as [y Hy]. rewrite Hy.
  intros Hx%bool_decide_eq_true. apply bool_decide_eq_true.
  pose proof (StronglySorted_lookup keys a b x y Hs Hab Ha Hy). lia.
Qed.

Lemma filter_all {A} (P : A → Prop) `{!∀ x, Decision (P x)} (l : list A) :
  Forall P l → filter P l = l.
Proof.
  induction 1 as [|x l Hx _ IH]; [done|].
  by rewrite filter_cons_True, IH.
Qed.

Lemma filter_none {A} (P : A → Prop) `{!∀ x, Decision (P x)} (l : list A) :
  Forall (λ x, ¬ P x) l → filter P l = [].
Proof.
  induction 1 as [|x l Hx _ IH]; [done|].
  by rewrite filter_cons_False.
Qed.

Lemma filter_ext_elem {A} (P Q : A → Prop)
    `{!∀ x, Decision (P x), !∀ x, Decision (Q x)} (l : list A) :
  (∀ x, x ∈ l → P x ↔ Q x) → filter P l = filter Q l.
Proof.
  induction l as [|x l IH]; intros Hext; [done|].
  rewrite !filter_cons.
  rewrite IH by (intros y Hy; apply Hext; by right).
  destruct (decide (P x)) as [HP|HP], (decide (Q x)) as [HQ|HQ]; try done;
    destruct (Hext x); try left; tauto.
Qed.

(** On a sorted list the walk from [h] is the list rotated at the index that
    [sort.Search] returns. *)
Lemma clockwise_Search (keys : list Z) h :
  StronglySorted Z.le keys →
  let r := Search (length keys) (key_ge keys h) in
  (r ≤ length keys)%nat ∧ clockwise keys h = drop r keys ++ take r keys.
Proof.
  intros Hs r.
  destruct (Search_spec (key_ge keys h) (length keys)) as (Hr & Hlo & Hhi).
  { intros a b. by apply key_ge_mono. }
  fold r in Hr, Hlo, Hhi. split; [done|].
  unfold clockwise. rewrite <-(take_drop r keys) at 1 2.
  rewrite !filter_app.
  assert (Forall (λ key, key < h) (take r keys)) as Htake.
  { apply Forall_lookup. intros k x Hk.
    apply lookup_take_Some in Hk as [Hk Hkr].
    specialize (Hlo k Hkr). unfold key_ge in Hlo. rewrite Hk in Hlo.
    apply bool_decide_eq_false in Hlo. lia. }
  assert (Forall (λ key, h ≤ key) (drop r keys)) as Hdrop.
  { apply Forall_lookup. intros k x Hk. rewrite lookup_drop in Hk.
    pose proof (lookup_lt_Some _ _ _ Hk) as Hlt.
    specialize (Hhi (r + k)%nat ltac:(lia) Hlt). unfold key_ge in Hhi.
    rewrite Hk in Hhi. by apply bool_decide_eq_true in Hhi. }
  rewrite (filter_none (λ key, h ≤ key) (take r keys)).
  2:{ eapply Forall_impl; [exact Htake|]. simpl. lia. }
  rewrite (filter_all (λ key, h ≤ key) (drop r keys)) by done.
  rewrite (filter_all (λ key, key < h) (take r keys)) by done.
  rewrite (filter_none (λ key, key < h) (drop r keys)).
  2:{ eapply Forall_impl; [exact Hdrop|]. simpl. lia. }
  by rewrite app_nil_r.
Qed.

(** ** The loops of [AddWorker] and [RemoveWorker] *)

Section RingFacts.
Context {W Σ : Type} `{!Worker W Σ}.
Implicit Types (ch : ConsistentHash W) (keys hs : list Z).

Lemma foldl_add_virtual_node workerID ch (l : list nat) :
  foldl (add_virtual_node workerID) ch l =
  let hs := (λ i, hashFunction (virtualNode workerID i)) <$> l in
  mkConsistentHash (replicas ch) (insert_all workerID hs (ring ch))
                   (sortedKeys ch ++ hs) (workers ch).
Proof.
  revert ch. induction l as [|i l IH]; intros ch; simpl.
  - rewrite app_nil_r. by destruct ch.
  - rewrite IH. simpl. by rewrite <-app_assoc.
Qed.

Lemma foldl_remove_virtual_node workerID ch (l : list nat) :
  foldl (remove_virtual_node workerID) ch l =
  let hs := (λ i, hashFunction (virtualNode workerID i)) <$> l in
  mkConsistentHash (replicas ch) (delete_all hs (ring ch))
                   (remove_all hs (sortedKeys ch)) (workers ch).
Proof.
  revert ch. induction l as [|i l IH]; intros ch; simpl.
  - by destruct ch.
  - by rewrite IH.
Qed.

Lemma AddWorker_unfold ch worker :
  AddWorker ch worker =
  let hs := vnode_hashes (replicas ch) (GetID worker) in
  mkConsistentHash (replicas ch) (insert_all (GetID worker) hs (ring ch))
                   (merge_sort Z.le (sortedKeys ch ++ hs))
                   (<[GetID worker := worker]> (workers ch)).
Proof. unfold AddWorker. by rewrite foldl_add_virtual_node. Qed.

Lemma RemoveWorker_unfold ch workerID :
  RemoveWorker ch workerID =
  let hs := vnode_hashes (replicas ch) workerID in
  mkConsistentHash (replicas ch) (delete_all hs (ring ch))
                   (remove_all hs (sortedKeys ch))
                   (delete workerID (workers ch)).
Proof. unfold RemoveWorker. by rewrite foldl_remove_virtual_node. Qed.

Lemma lookup_insert_all workerID hs (m : gmap Z string) key :
  insert_all workerID hs m !! key =
  if decide (key ∈ hs) then Some workerID else m !! key.
Proof.
  revert m. induction hs as [|h hs IH]; intros m;
    unfold insert_all in *; cbn [foldl].
  - by rewrite decide_False by apply not_elem_of_nil.
  - rewrite IH.
    destruct (decide (key ∈ hs)) as [Hin|Hnin].
    + by rewrite decide_True by (by right).
    + destruct (decide (key = h)) as [->|Hne].
      * rewrite lookup_insert_eq. by rewrite decide_True by left.
      * rewrite lookup_insert_ne by done.
        rewrite decide_False; [done|]. by intros [?|?]%elem_of_cons.
Qed.

Lemma lookup_delete_all hs (m : gmap Z string) key :
  delete_all hs m !! key = if decide (key ∈ hs) then None else m !! key.
Proof.
  revert m. induction hs as [|h hs IH]; intros m;
    unfold delete_all in *; cbn [foldl].
  - by rewrite decide_False by apply not_elem_of_nil.
  - rewrite IH.
    destruct (decide (key ∈ hs)) as [Hin|Hnin].
    + by rewrite decide_True by (by right).
    + destruct (decide (key = h)) as [->|Hne].
      * rewrite lookup_delete_eq. by rewrite decide_True by left.
      * rewrite lookup_delete_ne by done.
        rewrite decide_False; [done|]. by intros [?|?]%elem_of_cons.
Qed.

Lemma elem_of_remove_first h keys x : x ∈ remove_first h keys → x ∈ keys.
Proof.
  induction keys as [|key keys IH]; simpl; [done|].
  case_decide; [by right|].
  intros [->|?]%elem_of_cons; [left|right; auto].
Qed.

Lemma elem_of_remove_first_ne h keys x :
  x ≠ h → x ∈ keys → x ∈ remove_first h keys.
Proof.
  intros Hne. induction keys as [|key keys IH]; simpl; [done|].
  intros [->|Hin]%elem_of_cons.
  - rewrite decide_False by done. left.
  - case_decide; [done|]. right; auto.
Qed.

Lemma remove_first_sorted h keys :
  StronglySorted Z.le keys → StronglySorted Z.le (remove_first h keys).
Proof.
  induction 1 as [|key keys Hs IH Hall]; simpl; [constructor|].
  case_decide; [done|]. constructor; [done|].
  rewrite Forall_forall in *. intros x Hx%elem_of_remove_first. auto.
Qed.

Lemma remove_first_NoDup h keys :
  NoDup keys → remove_first h keys = filter (λ key, key ≠ h) keys.
Proof.
  induction 1 as [|key keys Hnin Hnd IH]; simpl; [done|].
  case_decide as Heq.
  - subst. rewrite filter_cons_False by (intros ?; done).
    symmetry. apply filter_all. apply Forall_forall. by intros x Hx ->.
  - by rewrite filter_cons_True, IH.
Qed.

Lemma elem_of_remove_all hs keys x : x ∈ remove_all hs keys → x ∈ keys.
Proof.
  revert keys. induction hs as [|h hs IH]; intros keys; simpl; [done|].
  unfold remove_all in *. simpl. intros Hx%IH. by eapply elem_of_remove_first.
Qed.

Lemma elem_of_remove_all_ne hs keys x :
  x ∉ hs → x ∈ keys → x ∈ remove_all hs keys.
Proof.
  revert keys. induction hs as [|h hs IH]; intros keys Hnin Hin; [done|].
  unfold remove_all in *. simpl. apply not_elem_of_cons in Hnin as [??].
  apply IH; [done|]. by apply elem_of_remove_first_ne.
Qed.

Lemma remove_all_sorted hs keys :
  StronglySorted Z.le keys → StronglySorted Z.le (remove_all hs keys).
Proof.
  revert keys. induction hs as [|h hs IH]; intros keys Hs; [done|].
  unfold remove_all in *. simpl. by apply IH, remove_first_sorted.
Qed.

Lemma remove_all_NoDup hs keys :
  NoDup keys → remove_all hs keys = filter (λ key, key ∉ hs) keys.
Proof.
  revert keys. induction hs as [|h hs IH]; intros keys Hnd.
  - simpl. symmetry. apply filter_all, Forall_forall.
    intros x _. apply not_elem_of_nil.
  - unfold remove_all in *. simpl. rewrite remove_first_NoDup by done.
    rewrite IH by by apply NoDup_filter.
    rewrite list_filter_filter. apply list_filter_iff.
    intros x. rewrite not_elem_of_cons. tauto.
Qed.

End RingFacts.

(** [sort.Slice] is modelled by its result: any ascending arrangement of the
    slice is the one [merge_sort] returns. *)
Lemma sorted_unique (keys sorted : list Z) :
  sorted ≡ₚ keys → StronglySorted Z.le sorted → sorted = merge_sort Z.le keys.
Proof.
  intros Hperm Hs. apply (StronglySorted_unique Z.le); [done| |].
  - apply (StronglySorted_merge_sort Z.le).
  - by rewrite merge_sort_Permutation.
Qed.

(** ** The invariant of the ring *)

Section Invariant.
Context {W Σ : Type} `{!Worker W Σ}.
Implicit Types (ch : ConsistentHash W) (keys hs : list Z).

Lemma ring_inv_New R : ring_inv (NewConsistentHash R).
Proof.
  split; simpl.
  - constructor.
  - intros key workerID. by rewrite lookup_empty.
  - intros workerID worker. by rewrite lookup_empty.
Qed.

Lemma ring_inv_AddWorker ch worker :
  ring_inv ch → ring_inv (AddWorker ch worker).
Proof.
  intros [Hs Hr Hw]. rewrite AddWorker_unfold. split; simpl.
  - apply (StronglySorted_merge_sort Z.le).
  - intros key workerID. rewrite lookup_insert_all, merge_sort_Permutation.
    rewrite elem_of_app. case_decide as Hin.
    + intros [= <-]. split_and!; [by right|done|].
      rewrite lookup_insert_eq. eauto.
    + intros (? & ? & ?)%Hr. split_and!; [by left|done|].
      apply lookup_insert_is_Some'. by right.
  - intros workerID w. rewrite lookup_insert.
    case_decide; [by intros [= <-]|]. apply Hw.
Qed.

Lemma ring_inv_RemoveWorker ch workerID :
  ring_inv ch → ring_inv (RemoveWorker ch workerID).
Proof.
  intros [Hs Hr Hw]. rewrite RemoveWorker_unfold. split; simpl.
  - by apply remove_all_sorted.
  - intros key id'. rewrite lookup_delete_all.
    case_decide as Hin; [done|].
    intros (Hk & Hv & Hreg)%Hr. split_and!; [|done|].
    + by apply elem_of_remove_all_ne.
    + rewrite lookup_delete_ne; [done|]. by intros ->.
  - intros id' w. rewrite lookup_delete.
    case_decide; [done|]. apply Hw.
Qed.

Lemma replicas_AddWorker ch worker : replicas (AddWorker ch worker) = replicas ch.
Proof. by rewrite AddWorker_unfold. Qed.

Lemma replicas_RemoveWorker ch workerID :
  replicas (RemoveWorker ch workerID) = replicas ch.
Proof. by rewrite RemoveWorker_unfold. Qed.

Lemma ring_inv_run_ops ch ops : ring_inv ch → ring_inv (run_ops ch ops).
Proof.
  revert ch. induction ops as [|op ops IH]; intros ch Hinv; [done|].
  simpl. apply IH. destruct op; simpl.
  - by apply ring_inv_AddWorker.
  - by apply ring_inv_RemoveWorker.
Qed.

Lemma ring_inv_reachable R ops : ring_inv (run_ops (NewConsistentHash R) ops).
Proof. apply ring_inv_run_ops, ring_inv_New. Qed.

Lemma elem_of_clockwise keys h key : key ∈ clockwise keys h ↔ key ∈ keys.
Proof.
  unfold clockwise. rewrite elem_of_app, !list_elem_of_filter.
  split; [tauto|]. intros Hin. destruct (decide (h ≤ key)); [left|right]; auto with lia.
Qed.

Lemma head_clockwise_elem keys h key :
  head (clockwise keys h) = Some key → key ∈ keys.
Proof. intros Hh%head_Some_elem_of. by apply elem_of_clockwise in Hh. Qed.

Lemma head_clockwise_None keys h : head (clockwise keys h) = None → keys = [].
Proof.
  destruct keys as [|key keys]; [done|]. intros Hh.
  assert (key ∈ clockwise (key :: keys) h) as Hin by (apply elem_of_clockwise; left).
  destruct (clockwise (key :: keys) h); [|done]. by apply not_elem_of_nil in Hin.
Qed.

(** [GetWorker] on a sorted key list: the first key met clockwise from the
    task's hash decides. *)
Lemma GetWorker_sorted ch taskID :
  StronglySorted Z.le (sortedKeys ch) →
  GetWorker ch taskID =
    if decide (ring ch = ∅) then NoWorkersAvailable
    else match head (clockwise (sortedKeys ch) (hashFunction taskID)) with
         | Some key =>
             Routed (workers ch !! default EmptyString (ring ch !! key))
         | None => IndexOutOfRange
         end.
Proof.
  intros Hs. unfold GetWorker.
  destruct (decide (size (ring ch) = 0%nat)) as [He|Hne].
  { apply map_size_empty_iff in He. by rewrite decide_True. }
  rewrite (decide_False (P := ring ch = ∅))
    by (by intros ?%map_size_empty_iff).
  destruct (clockwise_Search (sortedKeys ch) (hashFunction taskID) Hs)
    as [Hr ->].
  set (r := Search _ _) in *. clearbody r.
  destruct (decide (r = length (sortedKeys ch))) as [->|Hlt].
  - rewrite drop_all, firstn_all. simpl. by rewrite head_lookup.
  - rewrite head_lookup, lookup_app_l, lookup_drop, Nat.add_0_r.
    + done.
    + rewrite length_drop. lia.
Qed.

(** After any history the key list covers the map, so [sortedKeys[idx]]
    does not panic. *)
Lemma GetWorker_inv ch taskID :
  ring_inv ch →
  GetWorker ch taskID =
    if decide (ring ch = ∅) then NoWorkersAvailable
    else match head (clockwise (sortedKeys ch) (hashFunction taskID)) with
         | Some key =>
             Routed (workers ch !! default EmptyString (ring ch !! key))
         | None => NoWorkersAvailable
         end.
Proof.
  intros [Hs Hr Hw]. rewrite GetWorker_sorted by done.
  case_decide as Hne; [done|].
  destruct (head _) eqn:Hh; [done|]. exfalso.
  apply head_clockwise_None in Hh.
  apply Hne, map_empty. intros key.
  destruct (ring ch !! key) as [workerID|] eqn:Hk; [|done].
  apply Hr in Hk as [Hk _]. rewrite Hh in Hk. by apply not_elem_of_nil in Hk.
Qed.

Lemma replicas_run_ops ch ops : replicas (run_ops ch ops) = replicas ch.
Proof.
  revert ch. induction ops as [|op ops IH]; intros ch; [done|].
  simpl. rewrite IH. destruct op; simpl.
  - apply replicas_AddWorker.
  - apply replicas_RemoveWorker.
Qed.

(** Without repeated hashes the key list has no duplicate and every key
    has an entry in the map. *)
Lemma fresh_adds_cover ch ops :
  fresh_adds ch ops →
  NoDup (sortedKeys ch) →
  (∀ key, key ∈ sortedKeys ch → is_Some (ring ch !! key)) →
  NoDup (sortedKeys (run_ops ch ops)) ∧
  ∀ key, key ∈ sortedKeys (run_ops ch ops) →
    is_Some (ring (run_ops ch ops) !! key).
Proof.
  revert ch. induction ops as [|op ops IH]; intros ch Hfresh Hnd Hcov; [done|].
  destruct Hfresh as [Hop Hfresh]. simpl.
  destruct op as [worker|workerID]; simpl in *.
  - destruct Hop as [Hhs Hdisj]. rewrite Forall_forall in Hdisj.
    revert Hfresh. rewrite AddWorker_unfold.
    intros Hfresh. apply IH; [done|simpl..].
    + rewrite merge_sort_Permutation. apply NoDup_app.
      split_and!; [done| |done]. intros x Hx Hx'. by apply (Hdisj x).
    + intros key. rewrite merge_sort_Permutation, lookup_insert_all.
      case_decide; [eauto|]. rewrite elem_of_app. intros [?|?]; [auto|done].
  - revert Hfresh. rewrite RemoveWorker_unfold.
    intros Hfresh. apply IH; [done|simpl..].
    + rewrite remove_all_NoDup by done. by apply NoDup_filter.
    + rewrite remove_all_NoDup by done.
      intros key [Hnin Hin]%list_elem_of_filter.
      rewrite lookup_delete_all, decide_False by done. auto.
Qed.

End Invariant.

(** ** Rings built by adding workers once each *)

Section Built.
Context {W Σ : Type} `{!Worker W Σ}.
Implicit Types (ch : ConsistentHash W) (keys hs : list Z) (ws : list W).

Lemma foldl_AddWorker_run_ops ch ws :
  foldl AddWorker ch ws = run_ops ch (OpAdd <$> ws).
Proof. revert ch. induction ws as [|w ws IH]; intros ch; [done|]. apply IH. Qed.

Lemma built_fresh_adds ch ws :
  NoDup (all_hashes (replicas ch) ws) →
  (∀ h, h ∈ all_hashes (replicas ch) ws → h ∉ sortedKeys ch) →
  fresh_adds ch (OpAdd <$> ws).
Proof.
  revert ch. induction ws as [|w ws IH]; intros ch Hnd Hdisj; [done|].
  unfold all_hashes in *. rewrite bind_cons in Hnd, Hdisj.
  apply NoDup_app in Hnd as (Hhs & Hsep & Hrest).
  simpl. split_and!; [done| |].
  - apply Forall_forall. intros h Hh. apply Hdisj, elem_of_app. by left.
  - apply IH; rewrite replicas_AddWorker; [done|].
    intros h Hh. rewrite AddWorker_unfold. simpl.
    rewrite merge_sort_Permutation, elem_of_app. intros [Hk|Hk].
    + revert Hk. apply Hdisj, elem_of_app. by right.
    + by apply (Hsep h).
Qed.

Lemma ring_foldl_AddWorker_other ch ws key :
  key ∉ all_hashes (replicas ch) ws →
  ring (foldl AddWorker ch ws) !! key = ring ch !! key.
Proof.
  revert ch. induction ws as [|w ws IH]; intros ch Hnin; [done|].
  unfold all_hashes in *. rewrite bind_cons in Hnin.
  apply not_elem_of_app in Hnin as [Hw Hrest].
  simpl. rewrite IH by (by rewrite replicas_AddWorker).
  rewrite AddWorker_unfold. simpl.
  by rewrite lookup_insert_all, decide_False.
Qed.

Lemma ring_foldl_AddWorker_owner ch ws w key :
  NoDup (all_hashes (replicas ch) ws) →
  w ∈ ws → key ∈ vnode_hashes (replicas ch) (GetID w) →
  ring (foldl AddWorker ch ws) !! key = Some (GetID w).
Proof.
  revert ch. induction ws as [|w0 ws IH]; intros ch Hnd Hw Hkey.
  { by apply not_elem_of_nil in Hw. }
  unfold all_hashes in *. rewrite bind_cons in Hnd.
  apply NoDup_app in Hnd as (Hhs & Hsep & Hrest). simpl.
  destruct (decide (key ∈ ws ≫= λ w, vnode_hashes (replicas ch) (GetID w)))
    as [Hin|Hnin].
  - apply elem_of_cons in Hw as [->|Hw].
    + by destruct (Hsep key).
    + apply IH; by rewrite ?replicas_AddWorker.
  - apply elem_of_cons in Hw as [->|Hw].
    + rewrite ring_foldl_AddWorker_other by (by rewrite replicas_AddWorker).
      rewrite AddWorker_unfold. simpl.
      by rewrite lookup_insert_all, decide_True.
    + destruct Hnin. apply list_elem_of_bind. eauto.
Qed.

Lemma filter_clockwise (P : Z → Prop) `{!∀ x, Decision (P x)} keys h :
  clockwise (filter P keys) h = filter P (clockwise keys h).
Proof.
  unfold clockwise. rewrite filter_app, !list_filter_filter.
  f_equal; apply list_filter_iff; tauto.
Qed.

(** When every key of the list has an entry in the map, the first key met
    clockwise decides, and there is none only on the empty ring. *)
Lemma GetWorker_cover ch taskID :
  ring_inv ch →
  (∀ key, key ∈ sortedKeys ch → is_Some (ring ch !! key)) →
  GetWorker ch taskID =
    match head (clockwise (sortedKeys ch) (hashFunction taskID)) with
    | Some key => Routed (workers ch !! default EmptyString (ring ch !! key))
    | None => NoWorkersAvailable
    end.
Proof.
  intros Hinv Hcov. rewrite GetWorker_inv by done.
  case_decide as He; [|done].
  destruct (head _) as [key|] eqn:Hh; [|done].
  apply head_clockwise_elem, Hcov in Hh as [? Hh].
  by rewrite He, lookup_empty in Hh.
Qed.

(** Lookups after [RemoveWorker], read on the ring before it: the first
    key clockwise that the removed worker does not own decides. *)
Lemma GetWorker_RemoveWorker ch workerID taskID :
  ring_inv ch →
  NoDup (sortedKeys ch) →
  (∀ key, key ∈ sortedKeys ch → is_Some (ring ch !! key)) →
  (∀ key, key ∈ vnode_hashes (replicas ch) workerID →
     key ∈ sortedKeys ch → ring ch !! key = Some workerID) →
  GetWorker (RemoveWorker ch workerID) taskID =
    match next_clockwise_not ch workerID (hashFunction taskID) with
    | Some key => Routed (workers ch !! default EmptyString (ring ch !! key))
    | None => NoWorkersAvailable
    end.
Proof.
  intros Hinv Hnd Hcov Hown.
  assert (∀ key, key ∈ sortedKeys ch →
            key ∉ vnode_hashes (replicas ch) workerID ↔
            ring ch !! key ≠ Some workerID) as Hiff.
  { intros key Hkey. split.
    - intros Hnin Hk. by apply (inv_ring _ Hinv) in Hk as (_ & ? & _).
    - intros Hne Hin. by apply Hne, Hown. }
  assert (sortedKeys (RemoveWorker ch workerID) =
          filter (λ key, ring ch !! key ≠ Some workerID) (sortedKeys ch))
    as Hkeys.
  { rewrite RemoveWorker_unfold. simpl. rewrite remove_all_NoDup by done.
    apply filter_ext_elem. intros key Hkey. by apply Hiff. }
  rewrite GetWorker_cover.
  - rewrite Hkeys, filter_clockwise. unfold next_clockwise_not.
    destruct (head _) as [key|] eqn:Hh; [|done].
    apply head_Some_elem_of, list_elem_of_filter in Hh as [Hne Hin].
    apply elem_of_clockwise in Hin.
    destruct (Hcov key Hin) as [id' Hk]. rewrite Hk in Hne |- *.
    rewrite RemoveWorker_unfold. simpl.
    rewrite lookup_delete_all, decide_False, Hk.
    + simpl. rewrite lookup_delete_ne; [done|]. by intros ->.
    + apply Hiff; [done|]. by rewrite Hk.
  - by apply ring_inv_RemoveWorker.
  - rewrite Hkeys. intros key [Hne Hin]%list_elem_of_filter.
    rewrite RemoveWorker_unfold. simpl.
    rewrite lookup_delete_all, decide_False; [auto|]. by apply Hiff.
Qed.

Lemma sortedKeys_foldl_AddWorker ch ws :
  sortedKeys (foldl AddWorker ch ws) ≡ₚ
  sortedKeys ch ++ all_hashes (replicas ch) ws.
Proof.
  revert ch. induction ws as [|w ws IH]; intros ch.
  - simpl. by rewrite app_nil_r.
  - cbn [foldl]. rewrite IH, replicas_AddWorker, AddWorker_unfold.
    cbn [sortedKeys]. unfold all_hashes.
    by rewrite merge_sort_Permutation, bind_cons, <-app_assoc.
Qed.

Lemma workers_foldl_AddWorker_other ch ws workerID :
  workerID ∉ GetID <$> ws →
  workers (foldl AddWorker ch ws) !! workerID = workers ch !! workerID.
Proof.
  revert ch. induction ws as [|w ws IH]; intros ch Hnin; [done|].
  rewrite fmap_cons in Hnin. apply not_elem_of_cons in Hnin as [Hne Hnin].
  simpl. rewrite IH by done. rewrite AddWorker_unfold. simpl.
  by rewrite lookup_insert_ne.
Qed.

Lemma workers_foldl_AddWorker ch ws w :
  NoDup (GetID <$> ws) → w ∈ ws →
  workers (foldl AddWorker ch ws) !! GetID w = Some w.
Proof.
  revert ch. induction ws as [|w0 ws IH]; intros ch Hnd Hw.
  { by apply not_elem_of_nil in Hw. }
  rewrite fmap_cons in Hnd. apply NoDup_cons in Hnd as [Hnin Hnd]. simpl.
  apply elem_of_cons in Hw as [->|Hw]; [|by apply IH].
  rewrite workers_foldl_AddWorker_other by done.
  rewrite AddWorker_unfold. simpl. apply lookup_insert_eq.
Qed.

(** X3.  The ring built from a set of workers does not depend on the order
    in which they were added, as long as no two virtual nodes share a
    hash. *)
Lemma built_order_irrelevant R ws1 ws2 :
  ws1 ≡ₚ ws2 →
  NoDup (GetID <$> ws1) →
  NoDup (all_hashes R ws1) →
  foldl AddWorker (NewConsistentHash R) ws1 =
  foldl AddWorker (NewConsistentHash R) ws2.
Proof.
  intros Hperm Hids Hhs.
  assert (NoDup (GetID <$> ws2)) as Hids2 by (by rewrite <-Hperm).
  assert (NoDup (all_hashes R ws2)) as Hhs2.
  { unfold all_hashes in *. by rewrite <-Hperm. }
  set (ch1 := foldl AddWorker (NewConsistentHash R) ws1).
  set (ch2 := foldl AddWorker (NewConsistentHash R) ws2).
  assert (ring_inv ch1 ∧ ring_inv ch2) as [Hinv1 Hinv2].
  { unfold ch1, ch2. rewrite !foldl_AddWorker_run_ops.
    split; apply ring_inv_reachable. }
  assert (replicas ch1 = replicas ch2) as Hrep.
  { unfold ch1, ch2. rewrite !foldl_AddWorker_run_ops.
    by rewrite !replicas_run_ops. }
  assert (sortedKeys ch1 = sortedKeys ch2) as Hkeys.
  { apply (StronglySorted_unique Z.le); [apply Hinv1|apply Hinv2|].
    unfold ch1, ch2. rewrite !sortedKeys_foldl_AddWorker. simpl.
    unfold all_hashes. by rewrite Hperm. }
  assert (ring ch1 = ring ch2) as Hring.
  { apply map_eq. intros key.
    destruct (decide (key ∈ all_hashes R ws1)) as [Hin|Hnin].
    - apply list_elem_of_bind in Hin as (w & Hkey & Hw).
      unfold ch1, ch2.
      rewrite !(ring_foldl_AddWorker_owner _ _ w); try done.
      by rewrite <-Hperm.
    - unfold ch1, ch2. rewrite !ring_foldl_AddWorker_other; try done.
      simpl. unfold all_hashes in *. by rewrite <-Hperm. }
  assert (workers ch1 = workers ch2) as Hworkers.
  { apply map_eq. intros workerID.
    destruct (decide (workerID ∈ GetID <$> ws1)) as [Hin|Hnin].
    - apply list_elem_of_fmap in Hin as (w & -> & Hw).
      unfold ch1, ch2. rewrite !workers_foldl_AddWorker; try done.
      by rewrite <-Hperm.
    - unfold ch1, ch2. rewrite !workers_foldl_AddWorker_other; try done.
      by rewrite <-Hperm. }
  destruct ch1, ch2. simpl in *. congruence.
Qed.

End Built.

(** ** Sorted lists with the same keys *)

Lemma StronglySorted_filter (P : Z → Prop) `{!∀ x, Decision (P x)}
    (keys : list Z) :
  StronglySorted Z.le keys → StronglySorted Z.le (filter P keys).
Proof.
  induction 1 as [|key keys Hs IH Hall]; [constructor|].
  rewrite filter_cons. case_decide; [|done]. constructor; [done|].
  rewrite Forall_forall in *. intros x [_ Hx]%list_elem_of_filter. auto.
Qed.

Lemma sorted_head_ext (l1 l2 : list Z) :
  StronglySorted Z.le l1 → StronglySorted Z.le l2 →
  (∀ x, x ∈ l1 ↔ x ∈ l2) → head l1 = head l2.
Proof.
  intros Hs1 Hs2 Hext. destruct l1 as [|a l1], l2 as [|b l2]; simpl.
  - done.
  - exfalso. apply (not_elem_of_nil b), Hext. left.
  - exfalso. apply (not_elem_of_nil a), Hext. left.
  - f_equal. apply StronglySorted_inv in Hs1 as [_ H1], Hs2 as [_ H2].
    rewrite Forall_forall in H1, H2.
    assert (a ∈ b :: l2) as Ha by (apply Hext; left).
    assert (b ∈ a :: l1) as Hb by (apply Hext; left).
    apply elem_of_cons in Ha as [?|Ha%H2]; [done|].
    apply elem_of_cons in Hb as [?|Hb%H1]; [done|]. lia.
Qed.

Lemma head_clockwise_ext (l1 l2 : list Z) h :
  StronglySorted Z.le l1 → StronglySorted Z.le l2 →
  (∀ x, x ∈ l1 ↔ x ∈ l2) →
  head (clockwise l1 h) = head (clockwise l2 h).
Proof.
  intros Hs1 Hs2 Hext. unfold clockwise.
  assert (head (filter (λ key, h ≤ key) l1) =
          head (filter (λ key, h ≤ key) l2)) as Hge.
  { apply sorted_head_ext; try by apply StronglySorted_filter.
    intros x. rewrite !list_elem_of_filter, Hext. tauto. }
  assert (head (filter (λ key, key < h) l1) =
          head (filter (λ key, key < h) l2)) as Hlt.
  { apply sorted_head_ext; try by apply StronglySorted_filter.
    intros x. rewrite !list_elem_of_filter, Hext. tauto. }
  destruct (filter (λ key, h ≤ key) l1), (filter (λ key, h ≤ key) l2);
    simpl in *; congruence.
Qed.

(** ** Properties of the hash ring *)

Section RingProperties.
Context {W Σ : Type} `{!Worker W Σ}.
Implicit Types (ch : ConsistentHash W) (keys hs : list Z).

(** C1 (minimal disruption).  On a ring built by adding each worker once,
    with no two virtual nodes sharing a hash, removing the registered
    worker [workerID] leaves every task that was routed to another worker
    on that worker; a task changes target only if the first virtual node
    clockwise from its hash belonged to [workerID]; and after the removal
    every task is routed to the owner of the first virtual node clockwise
    from its hash that does not belong to [workerID] (the lookup fails
    when no such node is left). *)
Theorem minimal_disruption R (ws : list W) workerID taskID :
  let ch := foldl AddWorker (NewConsistentHash R) ws in
  let ch' := RemoveWorker ch workerID in
  let h := hashFunction taskID in
  NoDup (GetID <$> ws) →
  NoDup (all_hashes R ws) →
  workerID ∈ GetID <$> ws →
  (∀ worker, GetWorker ch taskID = Routed (Some worker) →
             GetID worker ≠ workerID →
             GetWorker ch' taskID = Routed (Some worker)) ∧
  (GetWorker ch' taskID ≠ GetWorker ch taskID →
   ∃ key, head (clockwise (sortedKeys ch) h) = Some key ∧
          ring ch !! key = Some workerID) ∧
  match next_clockwise_not ch workerID h with
  | Some key =>
      ∃ worker, ring ch !! key = Some (GetID worker) ∧
                workers ch !! GetID worker = Some worker ∧
                GetID worker ≠ workerID ∧
                GetWorker ch' taskID = Routed (Some worker)
  | None => GetWorker ch' taskID = NoWorkersAvailable
  end.
Proof.
  intros ch ch' h Hids Hhashes Hreg.
  assert (ring_inv ch) as Hinv.
  { unfold ch. rewrite foldl_AddWorker_run_ops. apply ring_inv_reachable. }
  assert (replicas ch = R) as HR.
  { unfold ch. rewrite foldl_AddWorker_run_ops. apply replicas_run_ops. }
  destruct (fresh_adds_cover (NewConsistentHash R) (OpAdd <$> ws))
    as [Hnd Hcov].
  { apply built_fresh_adds; [done|]. by intros ? _ ?%not_elem_of_nil. }
  { constructor. }
  { by intros key ?%not_elem_of_nil. }
  rewrite <-foldl_AddWorker_run_ops in Hnd, Hcov. fold ch in Hnd, Hcov.
  assert (∀ key, key ∈ vnode_hashes (replicas ch) workerID →
            ring ch !! key = Some workerID) as Hown.
  { intros key Hkey. apply list_elem_of_fmap in Hreg as (w & -> & Hw).
    rewrite HR in Hkey. by apply ring_foldl_AddWorker_owner. }
  pose proof (GetWorker_cover ch taskID Hinv Hcov) as HG.
  pose proof (GetWorker_RemoveWorker ch workerID taskID Hinv Hnd Hcov
                (λ key Hkey _, Hown key Hkey)) as HG'.
  fold ch' h in HG'. fold h in HG.
  assert (∀ worker, GetWorker ch taskID = Routed (Some worker) →
            GetID worker ≠ workerID →
            GetWorker ch' taskID = Routed (Some worker)) as Hkeep.
  { intros worker Hrouted Hother. rewrite HG in Hrouted.
    unfold next_clockwise_not in HG'.
    destruct (clockwise (sortedKeys ch) h) as [|key rest] eqn:Hcw; [done|].
    simpl in Hrouted. injection Hrouted as Hworker.
    assert (key ∈ sortedKeys ch) as Hkey.
    { apply (elem_of_clockwise _ h). rewrite Hcw. left. }
    destruct (Hcov key Hkey) as [id' Hk]. rewrite Hk in Hworker.
    simpl in Hworker.
    pose proof (inv_workers _ Hinv _ _ Hworker) as Hid.
    rewrite filter_cons_True in HG' by (rewrite Hk; congruence).
    simpl in HG'. rewrite HG', Hk. simpl. by rewrite Hworker. }
  split_and!; [done| |].
  - intros Hdiff.
    destruct (head (clockwise (sortedKeys ch) h)) as [key|] eqn:Hh.
    + exists key. split; [done|].
      destruct (Hcov key (head_clockwise_elem _ _ _ Hh)) as [id' Hk].
      destruct (decide (id' = workerID)) as [->|Hne]; [done|].
      destruct (inv_ring _ Hinv _ _ Hk) as (_ & _ & [worker Hw]).
      pose proof (inv_workers _ Hinv _ _ Hw) as Hid.
      rewrite Hk in HG. simpl in HG. rewrite Hw in HG.
      destruct Hdiff. rewrite HG. apply Hkeep; [done|]. by rewrite Hid.
    + destruct Hdiff. rewrite HG, HG'. unfold next_clockwise_not.
      apply head_None in Hh. by rewrite Hh.
  - destruct (next_clockwise_not ch workerID h) as [key|] eqn:Hnext; [|done].
    unfold next_clockwise_not in Hnext.
    apply head_Some_elem_of, list_elem_of_filter in Hnext as [Hne Hin].
    apply elem_of_clockwise in Hin.
    destruct (Hcov key Hin) as [id' Hk].
    destruct (inv_ring _ Hinv _ _ Hk) as (_ & _ & [worker Hw]).
    pose proof (inv_workers _ Hinv _ _ Hw) as Hid. subst id'.
    exists worker. rewrite HG', Hk. simpl. rewrite Hw.
    split_and!; try done. by intros Heq; rewrite Heq in Hk.
Qed.

(** C3 (wrap-around), amended.  On a ring reached by any history and
    holding at least one virtual node, a task whose hash is strictly
    greater than every key of the sorted key list is routed through the
    smallest key [kmin] of the list: [GetWorker] returns a nil error and
    [workers[ring[kmin]]].  That is the registered worker owning [kmin]
    whenever [kmin] has an entry in the map, so whenever every key of the
    list has one; it is the nil worker when [kmin] is a stale key, without
    entry, and no worker is registered under the empty ID. *)
Theorem GetWorker_wrap_around R (ops : list (ring_op W)) taskID :
  let ch := run_ops (NewConsistentHash R) ops in
  ring ch ≠ ∅ →
  Forall (λ key, key < hashFunction taskID) (sortedKeys ch) →
  ∃ kmin,
    head (sortedKeys ch) = Some kmin ∧
    Forall (λ key, kmin ≤ key) (sortedKeys ch) ∧
    GetWorker ch taskID =
      Routed (workers ch !! default EmptyString (ring ch !! kmin)) ∧
    (∀ workerID, ring ch !! kmin = Some workerID →
       ∃ worker, workers ch !! workerID = Some worker ∧
                 GetID worker = workerID ∧
                 GetWorker ch taskID = Routed (Some worker)) ∧
    ((∀ key, key ∈ sortedKeys ch → is_Some (ring ch !! key)) →
     ∃ worker, ring ch !! kmin = Some (GetID worker) ∧
               workers ch !! GetID worker = Some worker ∧
               GetWorker ch taskID = Routed (Some worker)) ∧
    (ring ch !! kmin = None → workers ch !! EmptyString = None →
     GetWorker ch taskID = Routed None).
Proof.
  intros ch Hne Hall.
  pose proof (ring_inv_reachable R ops) as Hinv. fold ch in Hinv.
  assert (clockwise (sortedKeys ch) (hashFunction taskID) = sortedKeys ch)
    as Hcw.
  { unfold clockwise. rewrite filter_none, filter_all; [done|done|].
    eapply Forall_impl; [exact Hall|]. simpl. lia. }
  assert (GetWorker ch taskID =
          match head (sortedKeys ch) with
          | Some key =>
              Routed (workers ch !! default EmptyString (ring ch !! key))
          | None => NoWorkersAvailable
          end) as HG.
  { rewrite GetWorker_inv by done. rewrite decide_False by done.
    by rewrite Hcw. }
  destruct (sortedKeys ch) as [|kmin keys] eqn:Hkeys.
  { exfalso. apply Hne, map_empty. intros key.
    destruct (ring ch !! key) eqn:Hk; [|done].
    apply (inv_ring _ Hinv) in Hk as [Hk _]. rewrite Hkeys in Hk.
    by apply not_elem_of_nil in Hk. }
  exists kmin. simpl in HG.
  assert (∀ workerID, ring ch !! kmin = Some workerID →
            ∃ worker, workers ch !! workerID = Some worker ∧
                      GetID worker = workerID ∧
                      GetWorker ch taskID = Routed (Some worker)) as Hown.
  { intros workerID Hk. rewrite HG, Hk. simpl.
    destruct (inv_ring _ Hinv _ _ Hk) as (_ & _ & [worker Hw]).
    exists worker. split_and!; [done| |by rewrite Hw].
    by apply (inv_workers _ Hinv). }
  split_and!; [done| |done|done| |].
  - pose proof (inv_sorted _ Hinv) as Hs. rewrite Hkeys in Hs.
    apply StronglySorted_inv in Hs as [_ Hs]. constructor; [lia|done].
  - intros Hcov. destruct (Hcov kmin) as [workerID Hk]; [left|].
    destruct (Hown workerID Hk) as (worker & Hw & <- & Hrouted).
    by exists worker.
  - intros Hk Hempty. rewrite HG, Hk. simpl. by rewrite Hempty.
Qed.

(** C4 (adding a registered worker again), amended.  On a ring reached by
    any history in which the worker's [replicas] virtual-node hashes are
    mapped to its ID, [AddWorker] of that worker leaves the hash-to-WorkerID
    map as it is and puts the handle given in the registry, but it does not
    replace the virtual nodes in the key list: the list stays sorted and
    receives each of these hashes once more, so it grows by [replicas]
    entries and holds each of these hashes at least twice.  Every task is
    routed as before, to the handle now registered.  With at least one
    replica the ring after the call is not the ring before it. *)
Theorem AddWorker_again R (ops : list (ring_op W)) worker :
  let ch := run_ops (NewConsistentHash R) ops in
  let ch' := AddWorker ch worker in
  let hs := vnode_hashes R (GetID worker) in
  (∀ key, key ∈ hs → ring ch !! key = Some (GetID worker)) →
  replicas ch' = replicas ch ∧
  ring ch' = ring ch ∧
  workers ch' = <[GetID worker := worker]> (workers ch) ∧
  StronglySorted Z.le (sortedKeys ch') ∧
  sortedKeys ch' ≡ₚ sortedKeys ch ++ hs ∧
  length (sortedKeys ch') = (length (sortedKeys ch) + Z.to_nat R)%nat ∧
  (∀ taskID,
     GetWorker ch' taskID =
     GetWorker (mkConsistentHash (replicas ch) (ring ch) (sortedKeys ch)
                  (<[GetID worker := worker]> (workers ch))) taskID) ∧
  (workers ch !! GetID worker = Some worker →
   ∀ taskID, GetWorker ch' taskID = GetWorker ch taskID) ∧
  (∀ key, key ∈ hs →
     (2 ≤ length (filter (λ k, k = key) (sortedKeys ch')))%nat) ∧
  (0 < R → ch' ≠ ch).
Proof.
  intros ch ch' hs Hown.
  pose proof (ring_inv_reachable R ops) as Hinv. fold ch in Hinv.
  assert (replicas ch = R) as HR by apply replicas_run_ops.
  assert (ch' = mkConsistentHash (replicas ch)
                  (insert_all (GetID worker) hs (ring ch))
                  (merge_sort Z.le (sortedKeys ch ++ hs))
                  (<[GetID worker := worker]> (workers ch))) as H'.
  { unfold ch'. rewrite AddWorker_unfold. simpl. by rewrite HR. }
  clearbody ch'. clearbody ch. subst ch'. simpl.
  assert (insert_all (GetID worker) hs (ring ch) = ring ch) as Hring.
  { apply map_eq. intros key. rewrite lookup_insert_all.
    case_decide as Hin; [|done]. symmetry. by apply Hown. }
  assert (StronglySorted Z.le (merge_sort Z.le (sortedKeys ch ++ hs))) as Hs'
    by apply (StronglySorted_merge_sort Z.le).
  assert (∀ taskID,
            GetWorker (mkConsistentHash (replicas ch)
                         (insert_all (GetID worker) hs (ring ch))
                         (merge_sort Z.le (sortedKeys ch ++ hs))
                         (<[GetID worker := worker]> (workers ch))) taskID =
            GetWorker (mkConsistentHash (replicas ch) (ring ch) (sortedKeys ch)
                         (<[GetID worker := worker]> (workers ch))) taskID)
    as Hroute.
  { intros taskID. rewrite !GetWorker_sorted by (done || apply Hinv).
    simpl. rewrite Hring.
    rewrite (head_clockwise_ext (merge_sort Z.le (sortedKeys ch ++ hs))
               (sortedKeys ch)); [done|done|apply Hinv|].
    intros x. rewrite merge_sort_Permutation, elem_of_app.
    split; [|auto]. intros [?|Hx]; [done|].
    by apply Hown, (inv_ring _ Hinv) in Hx as [? _]. }
  split_and!; try done.
  - apply merge_sort_Permutation.
  - rewrite merge_sort_Permutation, length_app. f_equal.
    unfold hs, vnode_hashes. by rewrite length_fmap, length_seq.
  - intros Hw taskID. rewrite Hroute. by rewrite insert_id; [destruct ch|].
  - intros key Hkey.
    assert (∀ l : list Z, key ∈ l →
              (1 ≤ length (filter (λ k, k = key) l))%nat) as Hone.
    { intros l Hin.
      assert (key ∈ filter (λ k, k = key) l) as Hf
        by (by apply list_elem_of_filter).
      destruct (filter (λ k, k = key) l); [|simpl; lia].
      by apply not_elem_of_nil in Hf. }
    rewrite merge_sort_Permutation, filter_app, length_app.
    pose proof (Hone hs Hkey).
    assert (key ∈ sortedKeys ch) as Hin
      by (by apply Hown, (inv_ring _ Hinv) in Hkey as [? _]).
    pose proof (Hone _ Hin). lia.
  - intros HRpos Heq.
    apply (f_equal (λ c, length (sortedKeys c))) in Heq. simpl in Heq.
    rewrite merge_sort_Permutation, length_app in Heq.
    unfold hs, vnode_hashes in Heq.
    rewrite length_fmap, length_seq in Heq. lia.
Qed.

(** C5 (ring invariant), amended.  After every history the sorted key
    list is ascending and every entry of the hash-to-WorkerID map has its
    hash in the list and its WorkerID registered; every hash of the list
    has an entry in the map when each [AddWorker] of the history brought
    hashes that were distinct and not yet in the list. *)
Theorem ring_invariant R (ops : list (ring_op W)) :
  let ch := run_ops (NewConsistentHash R) ops in
  StronglySorted Z.le (sortedKeys ch) ∧
  (∀ key workerID, ring ch !! key = Some workerID →
     key ∈ sortedKeys ch ∧ is_Some (workers ch !! workerID)) ∧
  (fresh_adds (NewConsistentHash R) ops →
   ∀ key, key ∈ sortedKeys ch →
     ∃ workerID, ring ch !! key = Some workerID ∧
                 is_Some (workers ch !! workerID)).
Proof.
  intros ch. pose proof (ring_inv_reachable R ops) as Hinv. fold ch in Hinv.
  split_and!.
  - apply Hinv.
  - intros key workerID Hk. apply (inv_ring _ Hinv) in Hk. tauto.
  - intros Hfresh.
    destruct (fresh_adds_cover (NewConsistentHash R) ops Hfresh)
      as [_ Hcov]; [constructor|by intros key ?%not_elem_of_nil|].
    fold ch in Hcov.
    intros key [workerID Hk]%Hcov. exists workerID. split; [done|].
    apply (inv_ring _ Hinv) in Hk. tauto.
Qed.

(** C6 (empty ring), amended.  With no worker registered [GetWorker]
    returns the no-workers-available error; after [AddWorker] of one
    worker on a ring whose key list is empty and whose replica count is at
    least 1, every [GetWorker] call returns that worker. *)
Theorem empty_ring_then_one_worker R (ops : list (ring_op W)) taskID :
  let ch := run_ops (NewConsistentHash R) ops in
  (workers ch = ∅ → GetWorker ch taskID = NoWorkersAvailable) ∧
  (0 < R → sortedKeys ch = [] →
   ∀ worker, GetWorker (AddWorker ch worker) taskID = Routed (Some worker)).
Proof.
  intros ch. pose proof (ring_inv_reachable R ops) as Hinv. fold ch in Hinv.
  split.
  - intros Hw. rewrite GetWorker_inv by done. rewrite decide_True; [done|].
    apply map_empty. intros key. destruct (ring ch !! key) eqn:Hk; [|done].
    apply (inv_ring _ Hinv) in Hk as (_ & _ & [w Hreg]).
    by rewrite Hw, lookup_empty in Hreg.
  - intros HR Hkeys worker.
    assert (replicas ch = R) as HRch by apply replicas_run_ops.
    pose proof (ring_inv_AddWorker ch worker Hinv) as Hinv'.
    rewrite GetWorker_inv by done.
    rewrite AddWorker_unfold in *. simpl in *. rewrite Hkeys, HRch in *.
    simpl in *.
    set (hs := vnode_hashes R (GetID worker)) in *.
    assert (∀ key, key ∈ hs →
              insert_all (GetID worker) hs (ring ch) !! key
              = Some (GetID worker)) as Hins.
    { intros key Hin. by rewrite lookup_insert_all, decide_True. }
    assert (hashFunction (virtualNode (GetID worker) 0) ∈ hs) as H0.
    { unfold hs, vnode_hashes. apply list_elem_of_fmap_2'
        with (x := 0%nat); [|done].
      apply elem_of_seq. lia. }
    rewrite decide_False.
    2:{ intros He. apply Hins in H0. by rewrite He, lookup_empty in H0. }
    destruct (head _) as [key|] eqn:Hh.
    + apply head_clockwise_elem in Hh.
      rewrite merge_sort_Permutation in Hh.
      rewrite (Hins key Hh). simpl. by rewrite lookup_insert_eq.
    + apply head_clockwise_None in Hh.
      rewrite <-(merge_sort_Permutation Z.le) in H0. rewrite Hh in H0.
      by apply not_elem_of_nil in H0.
Qed.

End RingProperties.

(** ** Properties of the manager and of its queue *)

Section ManagerProperties.
Context {W Σ : Type} `{!Worker W Σ}.
Implicit Types (wm : WorkerManager W) (ch : ConsistentHash W).





(** C7 (backpressure).  On a queue holding as many tasks as its capacity,
    [SubmitTask] returns the queue-full error and leaves the manager as it
    was; once the dispatch loop has taken one task, [SubmitTask] succeeds
    and appends the new task behind the tasks that were waiting. *)
Theorem SubmitTask_backpressure wm task :
  length (chan_buf (taskChan wm)) = chan_cap (taskChan wm) →
  SubmitTask wm task = (Some "task queue is full"%string, wm) ∧
  ∀ σ d wm', taskProcessor_turn σ wm = Some (d, wm') →
    ∀ task', ∃ wm'',
      SubmitTask wm' task' = (None, wm'') ∧
      chan_buf (taskChan wm'') = tail (chan_buf (taskChan wm)) ++ [task'] ∧
      chan_cap (taskChan wm'') = chan_cap (taskChan wm) ∧
      hash wm'' = hash wm.
Proof.
  intros Hfull. split.
  - unfold SubmitTask, try_send. rewrite decide_False by lia. done.
  - intros σ d wm'. unfold taskProcessor_turn, recv.
    destruct (chan_buf (taskChan wm)) as [|task0 rest] eqn:Hbuf; [done|].
    intros [= _ <-] task'. unfold SubmitTask, try_send. simpl in *.
    rewrite decide_True by lia. eauto.
Qed.

Lemma submit_all_room wm tasks :
  (length (chan_buf (taskChan wm)) + length tasks ≤ chan_cap (taskChan wm))%nat →
  (submit_all wm tasks).1 = replicate (length tasks) None ∧
  chan_buf (taskChan (submit_all wm tasks).2) =
    chan_buf (taskChan wm) ++ tasks ∧
  chan_cap (taskChan (submit_all wm tasks).2) = chan_cap (taskChan wm).
Proof.
  revert wm. induction tasks as [|task tasks IH]; intros wm Hroom; simpl.
  - by rewrite app_nil_r.
  - unfold SubmitTask, try_send. simpl in Hroom.
    rewrite decide_True by lia.
    set (wm' := mkWorkerManager _ _ _).
    destruct (IH wm') as (IH1 & IH2 & IH3).
    { simpl. rewrite length_app. simpl. lia. }
    destruct (submit_all wm' tasks) as [errs wm'']. simpl in *.
    rewrite IH1, IH2, IH3. by rewrite <-app_assoc.
Qed.

(** C10 (capacity 100).  On the empty queue of a new manager, with no
    task taken out, 100 calls of [SubmitTask] in a row all succeed and
    the next call returns the queue-full error. *)
Theorem queue_capacity_100 R (tasks : list Task) task :
  length tasks = 100%nat →
  let '(errs, wm) := submit_all (NewWorkerManager (W:=W) R) tasks in
  errs = replicate 100 None ∧
  chan_buf (taskChan wm) = tasks ∧
  SubmitTask wm task = (Some "task queue is full"%string, wm).
Proof.
  intros Hlen.
  destruct (submit_all_room (NewWorkerManager (W:=W) R) tasks)
    as (Herrs & Hbuf & Hcap).
  { simpl. lia. }
  destruct (submit_all _ _) as [errs wm]. simpl in *.
  rewrite Hlen in Herrs. split_and!; [done..|].
  unfold SubmitTask, try_send. rewrite Hbuf, Hcap, Hlen.
  by rewrite decide_False by lia.
Qed.

(** C8 (health exclusion, drop only).  When the lookup for the task at
    the head of the queue fails, or the worker it is routed to reports
    unhealthy, the turn of the dispatch loop reports it and starts no
    [ProcessTask]; the task leaves the queue and is not put back, and the
    loop goes on with the tasks behind it.  (The turn is the one [select]
    takes when [stopChan] is open, or when it is closed and [select] picks
    the task.) *)
Theorem unroutable_task_dropped σ wm task rest :
  chan_buf (taskChan wm) = task :: rest →
  GetWorker (hash wm) (ID task) = NoWorkersAvailable ∨
  (∃ worker, GetWorker (hash wm) (ID task) = Routed (Some worker) ∧
             IsHealthy σ worker = false) →
  ∃ d wm',
    taskProcessor_turn σ wm = Some (d, wm') ∧
    (d = LookupFailed "no workers available" ∨
     ∃ worker, GetWorker (hash wm) (ID task) = Routed (Some worker) ∧
               d = Unhealthy (GetID worker) (ID task)) ∧
    (∀ worker task', d ≠ Spawned worker task') ∧
    chan_buf (taskChan wm') = rest ∧
    hash wm' = hash wm ∧
    ∀ pick, stopChan wm = false ∨ pick 0%nat = true →
      taskProcessor pick σ wm =
        (d :: (taskProcessor (λ n, pick (S n)) σ wm').1,
         (taskProcessor (λ n, pick (S n)) σ wm').2).
Proof.
  intros Hbuf Hcase.
  assert (taskProcessor_turn σ wm =
          Some (route σ (hash wm) task,
                mkWorkerManager (hash wm)
                  (mkChan rest (chan_cap (taskChan wm))) (stopChan wm)))
    as Hturn.
  { unfold taskProcessor_turn, recv. by rewrite Hbuf. }
  eexists _, _. split; [exact Hturn|].
  assert (∀ d, route σ (hash wm) task = d → d ≠ Crashed →
            ∀ pick, stopChan wm = false ∨ pick 0%nat = true →
            taskProcessor pick σ wm =
            (d :: (taskProcessor (λ n, pick (S n)) σ
                     (mkWorkerManager (hash wm)
                        (mkChan rest (chan_cap (taskChan wm)))
                        (stopChan wm))).1,
             (taskProcessor (λ n, pick (S n)) σ
                (mkWorkerManager (hash wm)
                   (mkChan rest (chan_cap (taskChan wm))) (stopChan wm))).2))
    as Hloop.
  { intros d Hd Hnc pick Hpick. unfold taskProcessor. rewrite Hbuf.
    cbn [length taskProcessor_loop chan_buf taskChan].
    rewrite Hturn, Hd.
    assert (stopChan wm && negb (pick 0%nat) = false) as ->.
    { destruct Hpick as [-> | ->]; [done|]. by rewrite andb_false_r. }
    destruct (taskProcessor_loop _ _ _ _) as [ds wm''].
    by destruct d. }
  destruct Hcase as [Herr|(worker & Hw & Hhealth)].
  - assert (route σ (hash wm) task = LookupFailed "no workers available")
      as Hd by (unfold route; by rewrite Herr).
    rewrite Hd. split_and!; [by left|done..|by apply Hloop].
  - assert (route σ (hash wm) task = Unhealthy (GetID worker) (ID task))
      as Hd by (unfold route; by rewrite Hw, Hhealth).
    rewrite Hd. split_and!; [right; eauto|done..|by apply Hloop].
Qed.

End ManagerProperties.

(** ** The error condition of [GetWorker] *)

(** C9 (error condition and nil worker).  After any history [GetWorker]
    returns the error exactly when the hash-to-WorkerID map is empty; when
    the map is not empty it returns a nil error together with
    [workers[ring[key]]] for a key of the list, which is the nil worker when
    that WorkerID is not registered; and this happens: after worker-1 is
    added twice, worker-2 once, and worker-1 removed, the lookup of task-02
    returns a nil worker and a nil error. *)
Theorem GetWorker_error_iff_ring_empty :
  (∀ (W Σ : Type) (HW : Worker W Σ) R (ops : list (ring_op W)) taskID,
     let ch := run_ops (NewConsistentHash R) ops in
     (GetWorker ch taskID = NoWorkersAvailable ↔ ring ch = ∅) ∧
     (ring ch ≠ ∅ →
      ∃ key, key ∈ sortedKeys ch ∧
             GetWorker ch taskID =
               Routed (workers ch !! default EmptyString (ring ch !! key)))) ∧
  (∃ (ops : list (ring_op DistributedWorker)) taskID,
     let ch := run_ops (NewConsistentHash 3) ops in
     ring ch ≠ ∅ ∧ GetWorker ch taskID = Routed None).
Proof.
  split.
  - intros W Σ HW R ops taskID ch.
    pose proof (ring_inv_reachable R ops) as Hinv. fold ch in Hinv.
    pose proof (GetWorker_inv ch taskID Hinv) as HG.
    assert (ring ch ≠ ∅ →
            ∃ key, key ∈ sortedKeys ch ∧
                   GetWorker ch taskID =
                     Routed (workers ch !! default EmptyString (ring ch !! key)))
      as Hrouted.
    { intros Hne. rewrite decide_False in HG by done.
      destruct (head _) as [key|] eqn:Hh.
      - exists key. split; [|done]. by eapply head_clockwise_elem.
      - exfalso. apply head_clockwise_None in Hh.
        apply Hne, map_empty. intros key.
        destruct (ring ch !! key) eqn:Hk; [|done].
        apply (inv_ring _ Hinv) in Hk as [Hk _]. rewrite Hh in Hk.
        by apply not_elem_of_nil in Hk. }
    split; [|done]. split.
    + intros Herr. destruct (decide (ring ch = ∅)) as [|Hne]; [done|].
      destruct (Hrouted Hne) as (key & _ & Hkey). congruence.
    + intros He. by rewrite HG, decide_True.
  - exists [OpAdd worker1; OpAdd worker1; OpAdd worker2;
            OpRemove "worker-1"%string], "task-02"%string.
    split.
    + apply (bool_decide_unpack _). vm_compute. exact I.
    + vm_compute. reflexivity.
Qed.

(** ** The properties on the workers of [main] *)

(** Removing worker-2 from the ring of worker-1 and worker-2 keeps task-01
    on worker-1. *)

Lemma minimal_disruption_witness :
  NoDup (GetID <$> [worker1; worker2]) ∧
  NoDup (all_hashes 3 [worker1; worker2]) ∧
  ("worker-2" : string) ∈ GetID <$> [worker1; worker2] ∧
  GetWorker ring12 "task-01" = Routed (Some worker1) ∧
  GetWorker (RemoveWorker ring12 "worker-2") "task-01" = Routed (Some worker1).
Proof.
  assert (NoDup (GetID <$> [worker1; worker2])) as H1
    by (apply (bool_decide_unpack _); vm_compute; exact I).
  assert (NoDup (all_hashes 3 [worker1; worker2])) as H2
    by (apply (bool_decide_unpack _); vm_compute; exact I).
  assert (("worker-2" : string) ∈ GetID <$> [worker1; worker2]) as H3
    by (apply (bool_decide_unpack _); vm_compute; exact I).
  assert (GetWorker ring12 "task-01" = Routed (Some worker1)) as H4
    by (vm_compute; reflexivity).
  split_and!; [exact H1|exact H2|exact H3|exact H4|].
  destruct (minimal_disruption 3 [worker1; worker2] "worker-2" "task-01"
              H1 H2 H3) as [Hkeep _].
  apply Hkeep; [exact H4|]. vm_compute. discriminate.
Defined.

(** The hash of task-04 is above the six keys of worker-1 and worker-2:
    the lookup wraps to the smallest key, which worker-2 owns. *)
Lemma GetWorker_wrap_around_witness :
  ring (run_ops (NewConsistentHash 3) [OpAdd worker1; OpAdd worker2]) ≠ ∅ ∧
  Forall (λ key, key < hashFunction "task-04")
         (sortedKeys (run_ops (NewConsistentHash 3)
                        [OpAdd worker1; OpAdd worker2])) ∧
  (∀ key,
     key ∈ sortedKeys (run_ops (NewConsistentHash 3)
                         [OpAdd worker1; OpAdd worker2]) →
     is_Some (ring (run_ops (NewConsistentHash 3)
                      [OpAdd worker1; OpAdd worker2]) !! key)) ∧
  ∃ worker,
    GetID worker = "worker-2"%string ∧
    GetWorker (run_ops (NewConsistentHash 3) [OpAdd worker1; OpAdd worker2])
              "task-04" = Routed (Some worker).
Proof.
  assert (ring (run_ops (NewConsistentHash 3) [OpAdd worker1; OpAdd worker2])
          ≠ ∅) as H1
    by (apply (bool_decide_unpack _); vm_compute; exact I).
  assert (Forall (λ key, key < hashFunction "task-04")
            (sortedKeys (run_ops (NewConsistentHash 3)
                           [OpAdd worker1; OpAdd worker2])))
    as H2 by (apply (bool_decide_unpack _); vm_compute; exact I).
  assert (∀ key,
            key ∈ sortedKeys (run_ops (NewConsistentHash 3)
                                [OpAdd worker1; OpAdd worker2]) →
            is_Some (ring (run_ops (NewConsistentHash 3)
                             [OpAdd worker1; OpAdd worker2]) !! key)) as H3.
  { apply (proj1 (Forall_forall
                    (λ key, is_Some (ring (run_ops (NewConsistentHash 3)
                                             [OpAdd worker1; OpAdd worker2])
                                     !! key)) _)).
    apply (bool_decide_unpack _). vm_compute. exact I. }
  split_and!; [exact H1|exact H2|exact H3|].
  destruct (GetWorker_wrap_around 3 [OpAdd worker1; OpAdd worker2] "task-04"
              H1 H2) as (kmin & Hhead & _ & _ & _ & Hcov & _).
  destruct (Hcov H3) as (worker & Hk & _ & Hrouted).
  exists worker. split; [|exact Hrouted].
  vm_compute in Hhead. injection Hhead as <-.
  vm_compute in Hk. injection Hk as Hid. symmetry. exact Hid.
Defined.

(** worker-2 added twice, worker-1 once, worker-2 removed: the map holds the
    three keys of worker-1, the hash of task-04 is above every key of the
    list, and the lookup wraps to the stale key 636295814 and returns a nil
    worker, not worker-1. *)
Lemma GetWorker_wrap_around_counterexample :
  ring (run_ops (NewConsistentHash 3)
          [OpAdd worker2; OpAdd worker2; OpAdd worker1;
           OpRemove "worker-2"%string]) ≠ ∅ ∧
  Forall (λ key, key < hashFunction "task-04")
         (sortedKeys (run_ops (NewConsistentHash 3)
                        [OpAdd worker2; OpAdd worker2; OpAdd worker1;
                         OpRemove "worker-2"%string])) ∧
  map_to_list (ring (run_ops (NewConsistentHash 3)
                       [OpAdd worker2; OpAdd worker2; OpAdd worker1;
                        OpRemove "worker-2"%string]))
    ≡ₚ [(665560287, "worker-1"%string); (1353487433, "worker-1"%string);
        (3383084531, "worker-1"%string)] ∧
  GetWorker (run_ops (NewConsistentHash 3)
               [OpAdd worker2; OpAdd worker2; OpAdd worker1;
                OpRemove "worker-2"%string]) "task-04" = Routed None.
Proof.
  split_and!.
  - apply (bool_decide_unpack _). vm_compute. exact I.
  - apply (bool_decide_unpack _). vm_compute. exact I.
  - apply (bool_decide_unpack _). vm_compute. exact I.
  - vm_compute. reflexivity.
Qed.

(** worker-1 is registered with its three virtual nodes when it is added
    again. *)
Lemma AddWorker_again_witness :
  (∀ key, key ∈ vnode_hashes 3 (GetID worker1) →
     ring (run_ops (NewConsistentHash 3) [OpAdd worker1]) !! key
       = Some (GetID worker1)) ∧
  ring (AddWorker (run_ops (NewConsistentHash 3) [OpAdd worker1]) worker1) =
    ring (run_ops (NewConsistentHash 3) [OpAdd worker1]) ∧
  length (sortedKeys
            (AddWorker (run_ops (NewConsistentHash 3) [OpAdd worker1]) worker1))
    = (length (sortedKeys (run_ops (NewConsistentHash 3) [OpAdd worker1]))
       + Z.to_nat 3)%nat.
Proof.
  assert (∀ key, key ∈ vnode_hashes 3 (GetID worker1) →
            ring (run_ops (NewConsistentHash 3) [OpAdd worker1]) !! key
              = Some (GetID worker1)) as H1.
  { apply Forall_forall. apply (bool_decide_unpack _). vm_compute. exact I. }
  split; [exact H1|].
  destruct (AddWorker_again 3 [OpAdd worker1] worker1 H1)
    as (_ & Hring & _ & _ & _ & Hlen & _).
  split; [exact Hring|exact Hlen].
Defined.

(** worker-1 added twice with 3 replicas: six keys, each hash twice. *)
Lemma AddWorker_twice_counterexample :
  sortedKeys (AddWorker (AddWorker (NewConsistentHash 3) worker1) worker1) =
    [665560287; 665560287; 1353487433; 1353487433; 3383084531; 3383084531] ∧
  AddWorker (AddWorker (NewConsistentHash 3) worker1) worker1 ≠
    AddWorker (NewConsistentHash 3) worker1.
Proof.
  split; [vm_compute; reflexivity|].
  intros Heq%(f_equal sortedKeys). vm_compute in Heq. discriminate.
Qed.

(** worker-1 added twice and removed once: its three hashes are still in the
    key list and the map is empty. *)
Lemma ring_invariant_counterexample :
  ¬ ∀ key,
      key ∈ sortedKeys (run_ops (NewConsistentHash 3)
              [OpAdd worker1; OpAdd worker1; OpRemove "worker-1"%string]) →
      ∃ workerID,
        ring (run_ops (NewConsistentHash 3)
                [OpAdd worker1; OpAdd worker1; OpRemove "worker-1"%string])
          !! key = Some workerID ∧
        is_Some (workers (run_ops (NewConsistentHash 3)
                   [OpAdd worker1; OpAdd worker1; OpRemove "worker-1"%string])
                 !! workerID).
Proof.
  intros Hall. destruct (Hall 665560287) as (workerID & Hk & _).
  - apply (bool_decide_unpack _). vm_compute. exact I.
  - vm_compute in Hk. discriminate.
Qed.

(** worker-1 and worker-2 added once each, worker-1 removed. *)
Lemma ring_invariant_witness :
  fresh_adds (NewConsistentHash 3)
    [OpAdd worker1; OpAdd worker2; OpRemove "worker-1"%string] ∧
  ∀ key,
    key ∈ sortedKeys (run_ops (NewConsistentHash 3)
            [OpAdd worker1; OpAdd worker2; OpRemove "worker-1"%string]) →
    ∃ workerID,
      ring (run_ops (NewConsistentHash 3)
              [OpAdd worker1; OpAdd worker2; OpRemove "worker-1"%string])
        !! key = Some workerID ∧
      is_Some (workers (run_ops (NewConsistentHash 3)
                 [OpAdd worker1; OpAdd worker2; OpRemove "worker-1"%string])
               !! workerID).
Proof.
  assert (fresh_adds (NewConsistentHash 3)
            [OpAdd worker1; OpAdd worker2; OpRemove "worker-1"%string]) as H1.
  { cbn [fresh_adds]. split_and!; try exact I;
      apply (bool_decide_unpack _); vm_compute; exact I. }
  split; [exact H1|].
  apply (ring_invariant 3
           [OpAdd worker1; OpAdd worker2; OpRemove "worker-1"%string]), H1.
Defined.

(** With no replica a registered worker has no virtual node. *)
Lemma empty_ring_counterexample :
  GetWorker (AddWorker (NewConsistentHash 0) worker1) "task-01" =
    NoWorkersAvailable.
Proof. vm_compute. reflexivity. Qed.

(** worker-1 alone on a new ring with 3 replicas takes task-01. *)
Lemma empty_ring_then_one_worker_witness :
  0 < 3 ∧
  sortedKeys (run_ops (NewConsistentHash (W:=DistributedWorker) 3) []) = [] ∧
  GetWorker (AddWorker (run_ops (NewConsistentHash 3) []) worker1) "task-01" =
    Routed (Some worker1).
Proof.
  split_and!; [lia|reflexivity|].
  apply (empty_ring_then_one_worker 3 [] "task-01"); [lia|reflexivity].
Defined.

(** A manager with 100 tasks waiting refuses task-01. *)
Lemma SubmitTask_backpressure_witness :
  length (chan_buf (taskChan full_manager)) = chan_cap (taskChan full_manager) ∧
  SubmitTask full_manager task01 =
    (Some "task queue is full"%string, full_manager).
Proof.
  split; [reflexivity|].
  apply (SubmitTask_backpressure full_manager task01). reflexivity.
Defined.

(** One hundred copies of task-01 fill the queue of a new manager. *)
Lemma queue_capacity_100_witness :
  length (replicate 100 task01) = 100%nat ∧
  let '(errs, wm) :=
    submit_all (NewWorkerManager (W:=DistributedWorker) 3)
               (replicate 100 task01) in
  errs = replicate 100 None ∧
  chan_buf (taskChan wm) = replicate 100 task01 ∧
  SubmitTask wm task04 = (Some "task queue is full"%string, wm).
Proof.
  split; [reflexivity|].
  apply (queue_capacity_100 3 (replicate 100 task01) task04). reflexivity.
Defined.

(** task-04 is routed to worker-2, which is unhealthy in [store_sick]. *)
Lemma unroutable_task_dropped_witness :
  chan_buf (taskChan full_manager) = task04 :: replicate 99 task01 ∧
  (∃ worker, GetWorker (hash full_manager) (ID task04) = Routed (Some worker) ∧
             IsHealthy store_sick worker = false) ∧
  ∃ d wm',
    taskProcessor_turn store_sick full_manager = Some (d, wm') ∧
    (∀ worker task', d ≠ Spawned worker task') ∧
    chan_buf (taskChan wm') = replicate 99 task01.
Proof.
  assert (∃ worker,
            GetWorker (hash full_manager) (ID task04) = Routed (Some worker) ∧
            IsHealthy store_sick worker = false) as H2.
  { exists worker2. split; vm_compute; reflexivity. }
  split_and!; [reflexivity|exact H2|].
  destruct (unroutable_task_dropped store_sick full_manager task04
              (replicate 99 task01) eq_refl (or_intror H2))
    as (d & wm' & Hturn & _ & Hns & Hbuf & _).
  exists d, wm'. split_and!; assumption.
Defined.

(** ** Further properties of the hash ring *)

Section RingExtras.
Context {W Σ : Type} `{!Worker W Σ}.
Implicit Types (ch : ConsistentHash W) (keys hs : list Z).

Lemma remove_first_notin h keys : h ∉ keys → remove_first h keys = keys.
Proof.
  induction keys as [|key keys IH]; [done|].
  intros [Hne Hnin]%not_elem_of_cons. simpl.
  rewrite decide_False by done. by rewrite IH.
Qed.

Lemma remove_all_notin hs keys :
  Forall (λ h, h ∉ keys) hs → remove_all hs keys = keys.
Proof.
  induction 1 as [|h hs Hh _ IH]; [done|].
  unfold remove_all in *. simpl. by rewrite remove_first_notin.
Qed.

Lemma remove_first_Permutation h keys :
  h ∈ keys → keys ≡ₚ h :: remove_first h keys.
Proof.
  induction keys as [|key keys IH]; [by intros ?%not_elem_of_nil|].
  simpl. case_decide as Heq; [by subst|].
  intros [?|Hin]%elem_of_cons; [done|].
  rewrite (IH Hin) at 1. apply Permutation_swap.
Qed.

Lemma remove_all_Permutation hs keys rest :
  keys ≡ₚ hs ++ rest → remove_all hs keys ≡ₚ rest.
Proof.
  revert keys. induction hs as [|h hs IH]; intros keys Hperm; [done|].
  unfold remove_all in *. simpl. apply IH.
  apply (Permutation.Permutation_cons_inv (a:=h)).
  rewrite <-remove_first_Permutation; [done|].
  rewrite Hperm. left.
Qed.

(** X1.  After any history, on a ring that holds a virtual node, a task is
    routed through the smallest key of the list that is at or above its
    hash, when there is one. *)
Theorem GetWorker_successor R (ops : list (ring_op W)) taskID key :
  let ch := run_ops (NewConsistentHash R) ops in
  ring ch ≠ ∅ →
  key ∈ sortedKeys ch →
  hashFunction taskID ≤ key →
  (∀ key', key' ∈ sortedKeys ch → hashFunction taskID ≤ key' → key ≤ key') →
  GetWorker ch taskID =
    Routed (workers ch !! default EmptyString (ring ch !! key)).
Proof.
  intros ch Hne Hkey Hge Hmin.
  pose proof (ring_inv_reachable R ops) as Hinv. fold ch in Hinv.
  rewrite GetWorker_inv, decide_False by done.
  set (h := hashFunction taskID) in *.
  assert (head (clockwise (sortedKeys ch) h) = Some key) as ->; [|done].
  unfold clockwise.
  pose proof (StronglySorted_filter (λ key, h ≤ key) _ (inv_sorted _ Hinv))
    as Hs.
  assert (key ∈ filter (λ key, h ≤ key) (sortedKeys ch)) as Hin
    by (by apply list_elem_of_filter).
  destruct (filter (λ key, h ≤ key) (sortedKeys ch)) as [|x l] eqn:Hf.
  { by apply not_elem_of_nil in Hin. }
  simpl. f_equal.
  assert (x ∈ filter (λ key, h ≤ key) (sortedKeys ch)) as Hx
    by (rewrite Hf; left).
  apply list_elem_of_filter in Hx as [Hhx Hx].
  pose proof (Hmin x Hx Hhx) as Hle.
  apply StronglySorted_inv in Hs as [_ Hall]. rewrite Forall_forall in Hall.
  apply elem_of_cons in Hin as [->|Hin%Hall]; [done|lia].
Qed.

(** X2.  After any history, [RemoveWorker] undoes [AddWorker]: when the
    worker's ID is not registered and none of its virtual-node hashes is in
    the key list, adding the worker and removing it gives back the ring as
    it was. *)
Theorem RemoveWorker_AddWorker R (ops : list (ring_op W)) worker :
  let ch := run_ops (NewConsistentHash R) ops in
  workers ch !! GetID worker = None →
  Forall (λ h, h ∉ sortedKeys ch) (vnode_hashes R (GetID worker)) →
  RemoveWorker (AddWorker ch worker) (GetID worker) = ch.
Proof.
  intros ch Hnone Hfresh.
  pose proof (ring_inv_reachable R ops) as Hinv. fold ch in Hinv.
  assert (replicas ch = R) as HR by apply replicas_run_ops.
  rewrite RemoveWorker_unfold, replicas_AddWorker, AddWorker_unfold, HR.
  simpl. set (hs := vnode_hashes R (GetID worker)) in *. clearbody ch.
  destruct ch as [R' m keys ws]. simpl in *. subst R'. f_equal.
  - apply map_eq. intros key. rewrite lookup_delete_all, lookup_insert_all.
    case_decide as Hin; [|done].
    rewrite Forall_forall in Hfresh.
    destruct (m !! key) as [workerID|] eqn:Hk; [|done].
    apply (inv_ring _ Hinv) in Hk as [Hk _]. by destruct (Hfresh key Hin).
  - apply (StronglySorted_unique Z.le).
    + apply remove_all_sorted, (StronglySorted_merge_sort Z.le).
    + apply Hinv.
    + apply remove_all_Permutation.
      rewrite merge_sort_Permutation. apply Permutation_app_comm.
  - rewrite delete_insert_eq. by apply delete_id.
Qed.

(** X4.  After any history, [RemoveWorker] of an ID that is not registered
    and has none of its virtual-node hashes in the key list changes
    nothing. *)
Theorem RemoveWorker_unknown R (ops : list (ring_op W)) workerID :
  let ch := run_ops (NewConsistentHash R) ops in
  workers ch !! workerID = None →
  Forall (λ h, h ∉ sortedKeys ch) (vnode_hashes R workerID) →
  RemoveWorker ch workerID = ch.
Proof.
  intros ch Hnone Hfresh.
  pose proof (ring_inv_reachable R ops) as Hinv. fold ch in Hinv.
  assert (replicas ch = R) as HR by apply replicas_run_ops.
  rewrite RemoveWorker_unfold, HR. simpl.
  set (hs := vnode_hashes R workerID) in *. clearbody ch.
  destruct ch as [R' m keys ws]. simpl in *. subst R'. f_equal.
  - apply map_eq. intros key. rewrite lookup_delete_all.
    case_decide as Hin; [|done].
    rewrite Forall_forall in Hfresh.
    destruct (m !! key) as [id'|] eqn:Hk; [|done].
    apply (inv_ring _ Hinv) in Hk as [Hk _]. by destruct (Hfresh key Hin).
  - by apply remove_all_notin.
  - by apply delete_id.
Qed.

(** X5.  After any history, the worker that [GetWorker] returns is the one
    registered under its own ID; so once [RemoveWorker] has been called for
    an ID, no task is routed to a worker with that ID. *)
Theorem GetWorker_registered R (ops : list (ring_op W)) workerID taskID worker :
  let ch := run_ops (NewConsistentHash R) ops in
  (GetWorker ch taskID = Routed (Some worker) →
   workers ch !! GetID worker = Some worker) ∧
  (GetWorker (RemoveWorker ch workerID) taskID = Routed (Some worker) →
   GetID worker ≠ workerID ∧ workers ch !! GetID worker = Some worker).
Proof.
  intros ch.
  assert (∀ ch0, ring_inv ch0 → GetWorker ch0 taskID = Routed (Some worker) →
            workers ch0 !! GetID worker = Some worker) as Hreg.
  { intros ch0 Hinv. rewrite GetWorker_inv by done.
    case_decide; [done|]. destruct (head _) as [key|]; [|done].
    intros [= Hw]. by rewrite (inv_workers _ Hinv _ _ Hw). }
  pose proof (ring_inv_reachable R ops) as Hinv. fold ch in Hinv.
  split; [by apply Hreg|].
  intros Hw%Hreg; [|by apply ring_inv_RemoveWorker].
  rewrite RemoveWorker_unfold in Hw. simpl in Hw.
  apply lookup_delete_Some in Hw as [Hne Hw]. done.
Qed.

(** X6.  After a history in which every [AddWorker] brought distinct hashes
    not yet in the key list, [GetWorker] never returns a nil worker with a
    nil error: it returns the error or a registered worker. *)
Theorem GetWorker_fresh_not_nil R (ops : list (ring_op W)) taskID :
  let ch := run_ops (NewConsistentHash R) ops in
  fresh_adds (NewConsistentHash R) ops →
  GetWorker ch taskID = NoWorkersAvailable ∨
  ∃ worker, GetWorker ch taskID = Routed (Some worker) ∧
            workers ch !! GetID worker = Some worker.
Proof.
  intros ch Hfresh.
  pose proof (ring_inv_reachable R ops) as Hinv. fold ch in Hinv.
  destruct (fresh_adds_cover (NewConsistentHash R) ops Hfresh)
    as [_ Hcov]; [constructor|by intros key ?%not_elem_of_nil|].
  fold ch in Hcov. rewrite GetWorker_cover by done.
  destruct (head _) as [key|] eqn:Hh; [|by left]. right.
  destruct (Hcov key (head_clockwise_elem _ _ _ Hh)) as [workerID Hk].
  destruct (inv_ring _ Hinv _ _ Hk) as (_ & _ & [worker Hw]).
  exists worker. rewrite Hk. simpl. rewrite Hw.
  by rewrite (inv_workers _ Hinv _ _ Hw).
Qed.

End RingExtras.

(** ** Further properties of the workers and of the manager *)

Lemma wrap_int64_range z : - 2 ^ 63 ≤ wrap_int64 z < 2 ^ 63.
Proof.
  unfold wrap_int64.
  pose proof (Z.mod_pos_bound (z + 2 ^ 63) (2 ^ 64) ltac:(lia)). lia.
Qed.

Lemma wrap_int64_id z : - 2 ^ 63 ≤ z < 2 ^ 63 → wrap_int64 z = z.
Proof. intros Hz. unfold wrap_int64. rewrite Z.mod_small; lia. Qed.

Lemma wrap_int64_add_l x y : wrap_int64 (wrap_int64 x + y) = wrap_int64 (x + y).
Proof.
  unfold wrap_int64. f_equal.
  replace ((x + 2 ^ 63) mod 2 ^ 64 - 2 ^ 63 + y + 2 ^ 63)
    with ((x + 2 ^ 63) mod 2 ^ 64 + y) by lia.
  rewrite Zplus_mod_idemp_l. f_equal. lia.
Qed.

Lemma run_calls_count (σ : gmap positive WorkerState) w calls s :
  σ !! addr w = Some s →
  - 2 ^ 63 ≤ processedCount s < 2 ^ 63 →
  ∃ s', (run_calls σ w calls).2 !! addr w = Some s' ∧
        - 2 ^ 63 ≤ processedCount s' < 2 ^ 63 ∧
        processedCount s' =
          wrap_int64 (processedCount s
                      + Z.of_nat (count_nil (run_calls σ w calls).1)) ∧
        ∀ a, a ≠ addr w → (run_calls σ w calls).2 !! a = σ !! a.
Proof.
  revert σ s. induction calls as [|call calls IH]; intros σ s Hs Hrange.
  - exists s. simpl. rewrite Z.add_0_r, wrap_int64_id by done. auto.
  - destruct call as [task|healthy]; simpl.
    + unfold ProcessTask. rewrite Hs.
      destruct (isHealthy s) eqn:Hh; simpl.
      * set (s1 := {| processedCount := _; isHealthy := _ |}).
        destruct (IH (<[addr w := s1]> σ) s1) as (s' & Hs' & Hr' & Hc & Hframe).
        { apply lookup_insert_eq. }
        { apply wrap_int64_range. }
        destruct (run_calls (<[addr w := s1]> σ) w calls) as [errs σ'].
        simpl in *. exists s'. split; [done|]. split; [done|]. split.
        -- rewrite Hc. unfold count_nil. rewrite filter_cons_True by done.
           simpl length. rewrite wrap_int64_add_l. f_equal. lia.
        -- intros a Ha. rewrite Hframe by done. by rewrite lookup_insert_ne.
      * destruct (IH σ s Hs Hrange) as (s' & Hs' & Hr' & Hc & Hframe).
        destruct (run_calls σ w calls) as [errs σ']. simpl in *.
        exists s'. split; [done|]. split; [done|]. split; [|done].
        rewrite Hc. unfold count_nil. by rewrite filter_cons_False.
    + unfold SetHealthy.
      set (s1 := {| processedCount := processedCount s; isHealthy := healthy |}).
      destruct (IH (alter (λ s, {| processedCount := processedCount s;
                                   isHealthy := healthy |}) (addr w) σ) s1)
        as (s' & Hs' & Hr' & Hc & Hframe).
      { rewrite lookup_alter_eq, Hs. done. }
      { done. }
      exists s'. split; [done|]. split; [done|]. split; [done|].
      intros a Ha. rewrite Hframe by done. by rewrite lookup_alter_ne.
Qed.

(** X7.  A worker made by [NewDistributedWorker] counts the tasks it
    processed and nothing else: after any calls of [ProcessTask] and
    [SetHealthy] on it, its count is the number of [ProcessTask] calls that
    returned a nil error (wrapped as an [int64]), whatever the changes of
    health in between, and the workers that were in the store before are
    as they were. *)
Theorem ProcessTask_counts (σ : gmap positive WorkerState) name time calls :
  let '(w, σ0) := NewDistributedWorker σ name time in
  let '(errs, σ') := run_calls σ0 w calls in
  GetProcessedCount σ' w = wrap_int64 (Z.of_nat (count_nil errs)) ∧
  (Z.of_nat (count_nil errs) < 2 ^ 63 →
   GetProcessedCount σ' w = Z.of_nat (count_nil errs)) ∧
  ∀ a, a ∈ dom σ → σ' !! a = σ !! a.
Proof.
  unfold NewDistributedWorker.
  set (w := {| id := name; processingTime := time; addr := fresh (dom σ) |}).
  set (s0 := {| processedCount := 0; isHealthy := true |}).
  destruct (run_calls_count (<[fresh (dom σ) := s0]> σ) w calls s0)
    as (s' & Hs' & Hr' & Hc & Hframe).
  { apply lookup_insert_eq. }
  { simpl. lia. }
  destruct (run_calls _ w calls) as [errs σ']. simpl in *.
  rewrite Hs', Hc. split_and!; [done| |].
  - intros Hsmall. apply wrap_int64_id. lia.
  - intros a Ha.
    assert (a ≠ fresh (dom σ)) as Hne.
    { intros ->. by apply (is_fresh (dom σ)). }
    rewrite Hframe by done. by rewrite lookup_insert_ne.
Qed.

Section ManagerExtras.
Context {W Σ : Type} `{!Worker W Σ}.
Implicit Types (wm : WorkerManager W) (ch : ConsistentHash W).

(** X8.  [SubmitTask] on a list of tasks accepts the tasks that fit and
    rejects the rest: with room for [n] more tasks, the first [n] are
    appended to the queue in order and every later one gets the queue-full
    error. *)
Theorem submit_all_prefix wm (tasks : list Task) :
  let room := (chan_cap (taskChan wm) - length (chan_buf (taskChan wm)))%nat in
  (submit_all wm tasks).1 =
    replicate (min (length tasks) room) None ++
    replicate (length tasks - room) (Some "task queue is full"%string) ∧
  chan_buf (taskChan (submit_all wm tasks).2) =
    chan_buf (taskChan wm) ++ take room tasks ∧
  chan_cap (taskChan (submit_all wm tasks).2) = chan_cap (taskChan wm) ∧
  hash (submit_all wm tasks).2 = hash wm.
Proof.
  revert wm. induction tasks as [|task tasks IH]; intros wm room.
  - simpl. rewrite take_nil, app_nil_r. done.
  - simpl. unfold SubmitTask, try_send.
    destruct (decide (length (chan_buf (taskChan wm)) < chan_cap (taskChan wm))%nat)
      as [Hlt|Hge].
    + set (wm' := mkWorkerManager _ _ _).
      destruct (IH wm') as (IH1 & IH2 & IH3 & IH4).
      destruct (submit_all wm' tasks) as [errs wm'']. simpl in *.
      rewrite IH1, IH2, IH3, IH4, length_app. simpl.
      destruct room as [|room'] eqn:Hroom; [lia|].
      replace (chan_cap (taskChan wm) - (length (chan_buf (taskChan wm)) + 1))%nat
        with room' by lia.
      simpl. by rewrite <-app_assoc.
    + destruct (IH wm) as (IH1 & IH2 & IH3 & IH4).
      destruct (submit_all wm tasks) as [errs wm'']. simpl in *.
      rewrite IH1, IH2, IH3, IH4.
      assert (room = 0%nat) as Hroom by lia. unfold room in *.
      rewrite Hroom. rewrite ?Nat.min_0_r, ?Nat.sub_0_r, ?take_0. done.
Qed.

(** X9.  The queue never holds more than 100 tasks: after any submissions
    and turns of the dispatch loop on a new manager the capacity is 100 and
    the number of waiting tasks is at most 100. *)
Theorem queue_bounded R (ops : list (manager_op Σ)) :
  let wm := foldl apply_manager_op (NewWorkerManager (W:=W) R) ops in
  chan_cap (taskChan wm) = 100%nat ∧
  (length (chan_buf (taskChan wm)) ≤ 100)%nat.
Proof.
  assert (∀ wm0 : WorkerManager W,
            chan_cap (taskChan wm0) = 100%nat →
            (length (chan_buf (taskChan wm0)) ≤ 100)%nat →
            chan_cap (taskChan (foldl apply_manager_op wm0 ops)) = 100%nat ∧
            (length (chan_buf (taskChan (foldl apply_manager_op wm0 ops)))
             ≤ 100)%nat) as Hgen.
  { induction ops as [|op ops IH]; intros wm0 Hcap Hlen; [done|].
    simpl. apply IH; destruct op as [task|σ]; simpl.
    - unfold SubmitTask, try_send. by case_decide.
    - unfold taskProcessor_turn, recv.
      by destruct (chan_buf (taskChan wm0)).
    - unfold SubmitTask, try_send. case_decide; simpl; [|done].
      rewrite length_app. simpl. lia.
    - unfold taskProcessor_turn, recv.
      destruct (chan_buf (taskChan wm0)) eqn:Hbuf; simpl in *; [by rewrite Hbuf|lia]. }
  apply Hgen; simpl; lia.
Qed.

(** X10.  The dispatch loop takes every waiting task once, in the order of
    submission, as long as it is not stopped: when no turn panics and
    [stopChan] is open (or [select] takes the task branch at every turn),
    the loop does for the i-th waiting task what [route] says for it, and
    leaves the queue empty and the ring untouched.  When [stopChan] is
    closed and the first [select] takes it, the loop returns at once and
    the tasks stay in the queue. *)
Theorem taskProcessor_fifo pick σ wm :
  Forall (λ task, route σ (hash wm) task ≠ Crashed) (chan_buf (taskChan wm)) →
  (stopChan wm = false ∨
   (∀ n, (n < length (chan_buf (taskChan wm)))%nat → pick n = true) →
   taskProcessor pick σ wm =
     (route σ (hash wm) <$> chan_buf (taskChan wm),
      mkWorkerManager (hash wm) (mkChan [] (chan_cap (taskChan wm)))
                      (stopChan wm))) ∧
  (stopChan wm = true → chan_buf (taskChan wm) ≠ [] → pick 0%nat = false →
   taskProcessor pick σ wm = ([], wm)).
Proof.
  unfold taskProcessor. destruct wm as [ch [buf cap] stop]. simpl.
  intros Hall. split.
  - revert pick. induction buf as [|task buf IH]; intros pick Hpick; [done|].
    apply Forall_cons in Hall as [Htask Hall].
    cbn [length taskProcessor_loop]. unfold taskProcessor_turn, recv. simpl.
    assert (stop && negb (pick 0%nat) = false) as ->.
    { destruct Hpick as [->|Hpick]; [done|].
      rewrite Hpick by (simpl; lia). apply andb_false_r. }
    rewrite (IH Hall).
    + by destruct (route σ ch task).
    + destruct Hpick as [?|Hpick]; [by left|right].
      intros n Hn. apply Hpick. simpl. lia.
  - intros -> Hne Hpick. destruct buf as [|task buf]; [done|].
    cbn [length taskProcessor_loop]. unfold taskProcessor_turn, recv. simpl.
    by rewrite Hpick.
Qed.

End ManagerExtras.

(** ** GetAllWorkers and GetStats, proved *)

Lemma Zsum_Permutation (l1 l2 : list Z) :
  l1 ≡ₚ l2 → foldr Z.add 0 l1 = foldr Z.add 0 l2.
Proof.
  induction 1 as [|x l l' _ IH|x y l|l l' l'' _ IH1 _ IH2]; cbn [foldr].
  - done.
  - by rewrite IH.
  - generalize (foldr Z.add 0 l). intros s. lia.
  - congruence.
Qed.

Section StatsExtras.
Context {W Σ F : Type} `{!Worker W Σ, !WorkerMetrics W Σ F}.
Implicit Types (ch : ConsistentHash W) (all : list W).

Lemma GetAllWorkers_IDs ch :
  ring_inv ch → GetID <$> GetAllWorkers ch = (map_to_list (workers ch)).*1.
Proof.
  intros Hinv. unfold GetAllWorkers. rewrite <-list_fmap_compose.
  apply list_fmap_ext. intros i [workerID worker] Hi. simpl.
  apply (inv_workers _ Hinv), elem_of_map_to_list.
  by eapply list_elem_of_lookup_2.
Qed.

Lemma elem_of_GetAllWorkers ch worker :
  ring_inv ch →
  worker ∈ GetAllWorkers ch ↔ workers ch !! GetID worker = Some worker.
Proof.
  intros Hinv. unfold GetAllWorkers. rewrite list_elem_of_fmap. split.
  - intros ([workerID w] & -> & Hin%elem_of_map_to_list). simpl.
    by rewrite (inv_workers _ Hinv _ _ Hin).
  - intros Hw. exists (GetID worker, worker). split; [done|].
    by apply elem_of_map_to_list.
Qed.

(** X11.  After any history [GetAllWorkers] returns the registered workers,
    each once: a worker is in the slice exactly when it is registered under
    its ID, no two workers of the slice have the same ID, and the slice is
    as long as the registry is large. *)
Theorem GetAllWorkers_registry R (ops : list (ring_op W)) :
  let ch := run_ops (NewConsistentHash R) ops in
  (∀ worker, worker ∈ GetAllWorkers ch ↔
             workers ch !! GetID worker = Some worker) ∧
  NoDup (GetID <$> GetAllWorkers ch) ∧
  length (GetAllWorkers ch) = size (workers ch).
Proof.
  intros ch. pose proof (ring_inv_reachable R ops) as Hinv. fold ch in Hinv.
  split_and!.
  - intros worker. by apply elem_of_GetAllWorkers.
  - rewrite GetAllWorkers_IDs by done. apply NoDup_fst_map_to_list.
  - unfold GetAllWorkers. by rewrite length_fmap, length_map_to_list.
Qed.

Lemma stats_fold σ all (stats : gmap string (stats_value F)) t h :
  foldl (stats_step σ) (stats, t, h) all =
  (foldl (λ m w, <[GetID w := WorkerStats (GetProcessedCount σ w)
                                (IsHealthy σ w) (GetLoad σ w)]> m) stats all,
   foldl (λ t w, wrap_int64 (t + GetProcessedCount σ w)) t all,
   h + Z.of_nat (length (filter (λ w, IsHealthy σ w = true) all))).
Proof.
  revert stats t h. induction all as [|w all IH]; intros stats t h.
  - simpl. by rewrite Z.add_0_r.
  - cbn [foldl stats_step]. rewrite IH. rewrite filter_cons.
    destruct (IsHealthy σ w) eqn:Hh.
    + rewrite decide_True by done. cbn [length]. f_equal. lia.
    + rewrite decide_False by done. done.
Qed.

Lemma stats_fold_other σ all (stats : gmap string (stats_value F)) workerID :
  workerID ∉ GetID <$> all →
  foldl (λ m w, <[GetID w := WorkerStats (GetProcessedCount σ w)
                               (IsHealthy σ w) (GetLoad σ w)]> m) stats all
    !! workerID = stats !! workerID.
Proof.
  revert stats. induction all as [|w all IH]; intros stats Hnin; [done|].
  rewrite fmap_cons in Hnin. apply not_elem_of_cons in Hnin as [Hne Hnin].
  simpl. rewrite IH by done. by rewrite lookup_insert_ne.
Qed.

Lemma stats_fold_elem σ all (stats : gmap string (stats_value F)) worker :
  NoDup (GetID <$> all) → worker ∈ all →
  foldl (λ m w, <[GetID w := WorkerStats (GetProcessedCount σ w)
                               (IsHealthy σ w) (GetLoad σ w)]> m) stats all
    !! GetID worker
  = Some (WorkerStats (GetProcessedCount σ worker) (IsHealthy σ worker)
                      (GetLoad σ worker)).
Proof.
  revert stats. induction all as [|w all IH]; intros stats Hnd Hin.
  { by apply not_elem_of_nil in Hin. }
  rewrite fmap_cons in Hnd. apply NoDup_cons in Hnd as [Hnin Hnd]. simpl.
  apply elem_of_cons in Hin as [->|Hin]; [|by apply IH].
  rewrite stats_fold_other by done. apply lookup_insert_eq.
Qed.

Lemma total_fold σ all t :
  - 2 ^ 63 ≤ t < 2 ^ 63 →
  foldl (λ t w, wrap_int64 (t + GetProcessedCount σ w)) t all =
  wrap_int64 (t + foldr Z.add 0 (GetProcessedCount σ <$> all)).
Proof.
  revert t. induction all as [|w all IH]; intros t Ht;
    cbn [foldl foldr fmap list_fmap].
  - by rewrite Z.add_0_r, wrap_int64_id.
  - rewrite IH by apply wrap_int64_range.
    rewrite wrap_int64_add_l. f_equal.
    generalize (foldr Z.add 0 (GetProcessedCount σ <$> all)). intros s. lia.
Qed.

Lemma GetStats_of_Permutation σ all1 all2 :
  all1 ≡ₚ all2 → NoDup (GetID <$> all1) →
  GetStats_of (F:=F) σ all1 = GetStats_of σ all2.
Proof.
  intros Hperm Hnd. unfold GetStats_of. rewrite !stats_fold.
  rewrite !total_fold by lia.
  assert (NoDup (GetID <$> all2)) as Hnd2 by (by rewrite <-Hperm).
  f_equal; [f_equal| ].
  - by rewrite Hperm.
  - by rewrite Hperm.
  - f_equal. apply Zsum_Permutation. by rewrite Hperm.
  - apply map_eq. intros workerID.
    destruct (decide (workerID ∈ GetID <$> all1)) as [Hin|Hnin].
    + apply list_elem_of_fmap in Hin as (w & -> & Hw).
      rewrite !stats_fold_elem; try done. by rewrite <-Hperm.
    + rewrite !stats_fold_other; try done. by rewrite <-Hperm.
Qed.

(** X12.  [GetStats] does not depend on the order in which the range over
    the registry hands out the workers: after any history, on every
    ordering of the registered workers it returns the same map. *)
Theorem GetStats_any_order R (ops : list (ring_op W)) σ c stop all :
  let wm := mkWorkerManager (run_ops (NewConsistentHash R) ops) c stop in
  all ≡ₚ GetAllWorkers (hash wm) →
  GetStats_of (F:=F) σ all = GetStats σ wm.
Proof.
  intros wm Hperm. unfold GetStats. apply GetStats_of_Permutation; [done|].
  rewrite Hperm. simpl. rewrite GetAllWorkers_IDs by apply ring_inv_reachable.
  apply NoDup_fst_map_to_list.
Qed.

(** X13.  After any history [GetStats] returns, under every registered ID
    other than ["total"], the count, the health and the load of that
    worker, and under ["total"] the number of registered workers, the
    number of them that are healthy (between 0 and the number of workers)
    and the sum of their counts wrapped as an [int64]; it has no other
    entry, and a worker registered as ["total"] has none of its own. *)
Theorem GetStats_content R (ops : list (ring_op W)) σ c stop :
  let ch := run_ops (NewConsistentHash R) ops in
  let wm := mkWorkerManager ch c stop in
  let healthy :=
    Z.of_nat (length (filter (λ w, IsHealthy σ w = true) (GetAllWorkers ch))) in
  let total :=
    wrap_int64 (foldr Z.add 0 (GetProcessedCount σ <$> GetAllWorkers ch)) in
  0 ≤ healthy ≤ Z.of_nat (size (workers ch)) ∧
  GetStats (F:=F) σ wm =
    <["total"%string := TotalStats (Z.of_nat (size (workers ch))) healthy total]>
      ((λ w, WorkerStats (GetProcessedCount σ w) (IsHealthy σ w) (GetLoad σ w))
         <$> workers ch).
Proof.
  intros ch wm healthy total.
  pose proof (ring_inv_reachable R ops) as Hinv. fold ch in Hinv.
  assert (length (GetAllWorkers ch) = size (workers ch)) as Hlen.
  { unfold GetAllWorkers. by rewrite length_fmap, length_map_to_list. }
  assert (NoDup (GetID <$> GetAllWorkers ch)) as Hnd.
  { rewrite GetAllWorkers_IDs by done. apply NoDup_fst_map_to_list. }
  split.
  - unfold healthy. rewrite <-Hlen.
    pose proof (length_filter (λ w, IsHealthy σ w = true) (GetAllWorkers ch)).
    lia.
  - unfold GetStats, GetStats_of. simpl. fold ch.
    rewrite stats_fold, total_fold by lia. rewrite Hlen. simpl.
    fold healthy total. f_equal.
    apply map_eq. intros workerID. rewrite lookup_fmap.
    destruct (workers ch !! workerID) as [w|] eqn:Hw; simpl.
    + pose proof (inv_workers _ Hinv _ _ Hw) as <-.
      apply stats_fold_elem; [done|]. by apply elem_of_GetAllWorkers.
    + rewrite stats_fold_other; [done|].
      rewrite GetAllWorkers_IDs by done.
      intros ([id' w] & -> & Hin%elem_of_map_to_list)%list_elem_of_fmap.
      simpl in Hw. congruence.
Qed.

End StatsExtras.

(** ** The strategies of the load balancer *)

Section BalancerExtras.
Import balancer.
Implicit Types (servers : list Server) (current : Z).

Lemma RoundRobin_in_range current servers :
  filter (λ server, Healthy server = true) servers ≠ [] →
  0 ≤ current + 1 < 2 ^ 63 →
  let healthyServers := filter (λ server, Healthy server = true) servers in
  let index :=
    Z.to_nat ((current + 1) mod Z.of_nat (length healthyServers)) in
  ∃ server,
    healthyServers !! index = Some server ∧
    RoundRobinStrategy_Select current servers = (Selected server, current + 1).
Proof.
  intros Hne Hrange healthyServers index.
  assert (0 < length healthyServers)%nat as Hlen.
  { fold healthyServers in Hne. destruct healthyServers; [done|simpl; lia]. }
  assert (length servers ≠ 0%nat) as Hservers.
  { intros Hz. apply nil_length_inv in Hz. subst servers. simpl in Hlen. lia. }
  pose proof (Z.mod_pos_bound (current + 1)
                (Z.of_nat (length healthyServers)) ltac:(lia)) as Hmod.
  destruct (lookup_lt_is_Some_2 healthyServers index) as [server Hs].
  { unfold index. lia. }
  exists server. split; [done|].
  unfold RoundRobinStrategy_Select. fold healthyServers.
  rewrite decide_False by done. rewrite decide_False by lia.
  rewrite wrap_int64_id by lia.
  rewrite Z.rem_mod_nonneg by lia.
  rewrite decide_True by lia. fold index. by rewrite Hs.
Qed.

(** X14.  [RoundRobinStrategy.Select] returns nil and leaves its counter
    alone exactly when no server is healthy (an empty slice included);
    otherwise, with the counter below the largest [int64], it adds one to
    the counter and returns the healthy server at the position the new
    counter has modulo the number of healthy servers; and when the
    incremented counter has wrapped below zero and the number of healthy
    servers does not divide it, the index is negative and [Select]
    panics. *)
Theorem RoundRobinStrategy_Select_spec current servers :
  let healthyServers := filter (λ server, Healthy server = true) servers in
  (healthyServers = [] ↔
   RoundRobinStrategy_Select current servers = (NoServer, current)) ∧
  (healthyServers ≠ [] → 0 ≤ current + 1 < 2 ^ 63 →
   ∃ server,
     healthyServers !!
       Z.to_nat ((current + 1) mod Z.of_nat (length healthyServers))
       = Some server ∧
     server ∈ servers ∧ Healthy server = true ∧
     RoundRobinStrategy_Select current servers = (Selected server, current + 1)) ∧
  (healthyServers ≠ [] → wrap_int64 (current + 1) < 0 →
   wrap_int64 (current + 1) mod Z.of_nat (length healthyServers) ≠ 0 →
   RoundRobinStrategy_Select current servers
   = (IndexOutOfRange, wrap_int64 (current + 1))).
Proof.
  intros healthyServers. split_and!.
  - split.
    + intros Hnil. unfold RoundRobinStrategy_Select. fold healthyServers.
      case_decide; [done|]. by rewrite Hnil, decide_True.
    + unfold RoundRobinStrategy_Select. fold healthyServers.
      destruct (decide (length servers = 0%nat)) as [Hz|Hnz].
      { intros _. apply nil_length_inv in Hz. unfold healthyServers.
        by rewrite Hz. }
      destruct (decide (length healthyServers = 0%nat)) as [Hz|Hnz'].
      { intros _. by apply nil_length_inv. }
      case_decide; [|done]. by destruct (healthyServers !! _).
  - intros Hne Hrange.
    destruct (RoundRobin_in_range current servers Hne Hrange)
      as (server & Hs & Hsel).
    exists server. split_and!; [done| | |done].
    + apply list_elem_of_lookup_2 in Hs.
      by apply list_elem_of_filter in Hs as [_ ?].
    + apply list_elem_of_lookup_2 in Hs.
      by apply list_elem_of_filter in Hs as [? _].
  - intros Hne Hneg Hrem.
    assert (0 < length healthyServers)%nat as Hlen.
    { destruct healthyServers; [done|simpl; lia]. }
    assert (length servers ≠ 0%nat) as Hservers.
    { intros Hz. apply nil_length_inv in Hz. unfold healthyServers in Hlen.
      rewrite Hz in Hlen. simpl in Hlen. lia. }
    unfold RoundRobinStrategy_Select. fold healthyServers.
    rewrite decide_False by done. rewrite decide_False by lia.
    rewrite decide_False; [done|].
    pose proof (Z.rem_nonpos (wrap_int64 (current + 1))
                  (Z.of_nat (length healthyServers)) ltac:(lia) ltac:(lia)).
    assert (Z.rem (wrap_int64 (current + 1))
                  (Z.of_nat (length healthyServers)) ≠ 0); [|lia].
    rewrite Z.rem_mod_eq_0 by lia. done.
Qed.

Lemma RoundRobin_calls_lookup n current servers :
  filter (λ server, Healthy server = true) servers ≠ [] →
  0 ≤ current + 1 → current + Z.of_nat n < 2 ^ 63 →
  let healthyServers := filter (λ server, Healthy server = true) servers in
  (RoundRobin_calls n current servers).2 = current + Z.of_nat n ∧
  length (RoundRobin_calls n current servers).1 = n ∧
  ∀ i, (i < n)%nat →
    (RoundRobin_calls n current servers).1 !! i =
    Selected <$> healthyServers !!
      Z.to_nat ((current + 1 + Z.of_nat i)
                mod Z.of_nat (length healthyServers)).
Proof.
  intros Hne. revert current.
  induction n as [|n IH]; intros current Hlo Hhi healthyServers.
  - simpl. split_and!; [lia|done|lia].
  - cbn [RoundRobin_calls].
    destruct (RoundRobin_in_range current servers Hne ltac:(lia))
      as (server & Hs & ->).
    destruct (IH (current + 1) ltac:(lia) ltac:(lia)) as (IH1 & IH2 & IH3).
    destruct (RoundRobin_calls n (current + 1) servers) as [sels current''].
    simpl in *. split_and!; [lia|lia|].
    intros [|i] Hi.
    + simpl. fold healthyServers in Hs. rewrite Z.add_0_r. by rewrite Hs.
    + change ((Selected server :: sels) !! S i) with (sels !! i).
      rewrite IH3 by lia. fold healthyServers.
      by replace (current + 1 + Z.of_nat (S i))
        with (current + 1 + 1 + Z.of_nat i) by lia.
Qed.

(** X15.  Round robin is fair over a cycle: with [k] healthy servers and a
    counter that stays below the largest [int64], [k] calls of [Select] in
    a row return the healthy servers in their order in the slice, started
    at the position of the counter, each exactly once. *)
Theorem RoundRobin_cycle current servers :
  let healthyServers := filter (λ server, Healthy server = true) servers in
  let k := length healthyServers in
  healthyServers ≠ [] →
  0 ≤ current + 1 → current + Z.of_nat k < 2 ^ 63 →
  RoundRobin_calls k current servers =
    (Selected <$>
       rotate (Z.to_nat ((current + 1) mod Z.of_nat k)) healthyServers,
     current + Z.of_nat k) ∧
  rotate (Z.to_nat ((current + 1) mod Z.of_nat k)) healthyServers
    ≡ₚ healthyServers.
Proof.
  intros healthyServers k Hne Hlo Hhi.
  assert (0 < k)%nat as Hk.
  { unfold k. destruct healthyServers; [done|simpl; lia]. }
  split.
  - destruct (RoundRobin_calls_lookup k current servers Hne Hlo Hhi)
      as (H2 & Hlen & Hlook).
    destruct (RoundRobin_calls k current servers) as [sels current'].
    simpl in *. f_equal; [|done].
    apply list_eq. intros i.
    destruct (decide (i < k)%nat) as [Hi|Hi].
    + rewrite Hlook by done. rewrite list_lookup_fmap.
      rewrite lookup_rotate_r by done. fold healthyServers k.
      unfold rotate_nat_add. fold k. do 3 f_equal.
      pose proof (Z.mod_pos_bound (current + 1) (Z.of_nat k) ltac:(lia)).
      rewrite Z2Nat.id by lia.
      by rewrite Zplus_mod_idemp_l.
    + rewrite !lookup_ge_None_2; [done| |lia].
      rewrite length_fmap, length_rotate. fold k. lia.
  - unfold rotate. rewrite Permutation_app_comm. by rewrite take_drop.
Qed.

Lemma least_fold seen servers (acc : option Server * Z) :
  Forall (λ server, Healthy server = true → 0 ≤ Active server)
         (seen ++ servers) →
  match acc with
  | (Some s, m) =>
      m = Active s ∧ s ∈ seen ∧ Healthy s = true ∧
      ∀ s', s' ∈ seen → Healthy s' = true → Active s ≤ Active s'
  | (None, m) => m = -1 ∧ Forall (λ s, Healthy s = false) seen
  end →
  match foldl least_step acc servers with
  | (Some s, m) =>
      m = Active s ∧ s ∈ seen ++ servers ∧ Healthy s = true ∧
      ∀ s', s' ∈ seen ++ servers → Healthy s' = true → Active s ≤ Active s'
  | (None, m) => m = -1 ∧ Forall (λ s, Healthy s = false) (seen ++ servers)
  end.
Proof.
  revert seen acc. induction servers as [|server servers IH];
    intros seen acc Hnonneg Hacc.
  { rewrite app_nil_r. by destruct acc as [[s|] m]. }
  replace (seen ++ server :: servers) with ((seen ++ [server]) ++ servers)
    in * by (by rewrite <-app_assoc).
  cbn [foldl]. apply IH; [done|].
  assert (Healthy server = true → 0 ≤ Active server) as Hserver.
  { rewrite Forall_forall in Hnonneg. apply Hnonneg.
    rewrite !elem_of_app, list_elem_of_singleton. auto. }
  unfold least_step. destruct acc as [[s|] m].
  - destruct Hacc as (-> & Hin & Hh & Hmin).
    destruct (Healthy server) eqn:Hhs; cbn [negb].
    + case_decide as Hlt.
      * split_and!; [done| |done|].
        { rewrite elem_of_app, list_elem_of_singleton. auto. }
        intros s' [Hs'|Heq%list_elem_of_singleton]%elem_of_app Hh';
          [|subst s'; lia].
        assert (0 ≤ Active s).
        { rewrite Forall_forall in Hnonneg. apply Hnonneg; [|done].
          rewrite !elem_of_app. auto. }
        specialize (Hmin s' Hs' Hh'). lia.
      * split_and!; [done| |done|].
        { rewrite elem_of_app. auto. }
        intros s' [Hs'|Heq%list_elem_of_singleton]%elem_of_app Hh';
          [auto|subst s'; lia].
    + split_and!; [done| |done|].
      { rewrite elem_of_app. auto. }
      intros s' [Hs'|Heq%list_elem_of_singleton]%elem_of_app Hh';
          [auto|subst s'; congruence].
  - destruct Hacc as [-> Hnone].
    destruct (Healthy server) eqn:Hhs; cbn [negb].
    + rewrite decide_True by (by left).
      split_and!; [done| |done|].
      { rewrite elem_of_app, list_elem_of_singleton. auto. }
      intros s' [Hs'|Heq%list_elem_of_singleton]%elem_of_app Hh';
          [|subst s'; lia].
      rewrite Forall_forall in Hnone. specialize (Hnone s' Hs'). congruence.
    + split; [done|]. apply Forall_app. split; [done|].
      by apply Forall_singleton.
Qed.

(** X16.  When no healthy server has a negative count of active
    connections, [LeastConnectionsStrategy.Select] returns a healthy server
    of the slice with the least count of active connections among the
    healthy servers, and it returns nil only when no server is healthy. *)
Theorem LeastConnectionsStrategy_Select_least servers :
  Forall (λ server, Healthy server = true → 0 ≤ Active server) servers →
  match LeastConnectionsStrategy_Select servers with
  | Some server =>
      server ∈ servers ∧ Healthy server = true ∧
      ∀ server', server' ∈ servers → Healthy server' = true →
                 Active server ≤ Active server'
  | None => Forall (λ server, Healthy server = false) servers
  end.
Proof.
  intros Hnonneg. unfold LeastConnectionsStrategy_Select.
  case_decide as Hz.
  { apply nil_length_inv in Hz. by subst. }
  pose proof (least_fold [] servers (None, -1) Hnonneg
                (conj eq_refl (Forall_nil_2 _))) as Hfold.
  destruct (foldl least_step (None, -1) servers) as [[s|] m]; simpl in *.
  - tauto.
  - tauto.
Qed.

Lemma NoDup_ID_inj servers server server' :
  NoDup (ID <$> servers) → server ∈ servers → server' ∈ servers →
  ID server = ID server' → server = server'.
Proof.
  intros Hnd Hs Hs' Heq.
  apply list_elem_of_lookup in Hs as [i Hi], Hs' as [j Hj].
  assert (i = j) as ->.
  { eapply NoDup_lookup; [exact Hnd| |];
      rewrite list_lookup_fmap; [by rewrite Hi|by rewrite Hj, Heq]. }
  congruence.
Qed.

Lemma wrr_total_snoc wrr1 seen server :
  wrr_total wrr1 (seen ++ [server]) =
  if Healthy server
  then wrap_int64 (wrr_total wrr1 seen + default 0 (weights wrr1 !! ID server))
  else wrr_total wrr1 seen.
Proof.
  unfold wrr_total. rewrite filter_app, filter_cons, filter_nil.
  destruct (Healthy server) eqn:Hh.
  - rewrite decide_True by done. by rewrite foldl_app.
  - rewrite decide_False by done. by rewrite app_nil_r.
Qed.

Lemma wrr_step_inv wrr1 seen server st :
  NoDup (ID <$> (seen ++ [server])) →
  wrr_inv wrr1 seen st →
  wrr_inv wrr1 (seen ++ [server]) (wrr_step (weights wrr1) st server).
Proof.
  intros Hnd [Hcur Hother Htotal Hsel].
  rewrite fmap_app in Hnd. apply NoDup_app in Hnd as (_ & Hsep & _).
  assert (ID server ∉ ID <$> seen) as Hfresh.
  { intros Hin. apply (Hsep _ Hin). simpl. left. }
  unfold wrr_step. destruct (Healthy server) eqn:Hh; cbn [negb].
  - assert (wrap_int64 (default 0 (loop_current st !! ID server)
                        + default 0 (weights wrr1 !! ID server))
            = wrr_score wrr1 server) as Hc.
    { unfold wrr_score. rewrite Hother; [done|].
      intros (s' & Heq & [_ Hin]%list_elem_of_filter)%list_elem_of_fmap.
      apply Hfresh. rewrite Heq. by apply list_elem_of_fmap_2. }
    rewrite Hc.
    assert (-1 ≤ loop_maxWeight st) as Hmax.
    { destruct (loop_selected st); destruct Hsel as (-> & ?); [|lia].
      destruct H as (_ & _ & ? & _). lia. }
    assert (∀ s, s ∈ seen → Healthy s = true →
              wrr_score wrr1 s ≤ loop_maxWeight st) as Hle.
    { intros s Hs Hhs. destruct (loop_selected st).
      - destruct Hsel as (-> & _ & _ & _ & Hall). by apply Hall.
      - destruct Hsel as (-> & Hall). by apply Hall. }
    assert (wrr_inv_cur :
      ∀ s, s ∈ seen ++ [server] → Healthy s = true →
           <[ID server := wrr_score wrr1 server]> (loop_current st) !! ID s
           = Some (wrr_score wrr1 s)).
    { intros s [Hs|Hs%list_elem_of_singleton]%elem_of_app Hhs.
      - rewrite lookup_insert_ne; [by apply Hcur|].
        intros Heq. apply Hfresh. rewrite Heq. by apply list_elem_of_fmap_2.
      - subst s. apply lookup_insert_eq. }
    assert (wrr_inv_oth :
      ∀ serverID,
        serverID ∉ ID <$> filter (λ s, Healthy s = true) (seen ++ [server]) →
        <[ID server := wrr_score wrr1 server]> (loop_current st) !! serverID
        = current wrr1 !! serverID).
    { intros serverID Hnin. rewrite filter_app, fmap_app in Hnin.
      apply not_elem_of_app in Hnin as [Hnin Hne].
      rewrite filter_cons, decide_True in Hne by done. simpl in Hne.
      apply not_elem_of_cons in Hne as [Hne _].
      rewrite lookup_insert_ne by done. by apply Hother. }
    case_decide as Hlt; split; simpl; try done.
    + by rewrite wrr_total_snoc, Hh, Htotal.
    + split_and!; [done| |done|lia|].
      { rewrite elem_of_app, list_elem_of_singleton. auto. }
      intros s [Hs|Hs%list_elem_of_singleton]%elem_of_app Hhs.
      * specialize (Hle s Hs Hhs). lia.
      * subst s. lia.
    + by rewrite wrr_total_snoc, Hh, Htotal.
    + destruct (loop_selected st) as [sel|].
      * destruct Hsel as (Hm & Hin & Hhsel & Hpos & Hall).
        split_and!; [done| |done|done|].
        { rewrite elem_of_app. auto. }
        intros s [Hs|Hs%list_elem_of_singleton]%elem_of_app Hhs; [auto|].
        subst s. lia.
      * destruct Hsel as (Hm & Hall). split; [done|].
        intros s [Hs|Hs%list_elem_of_singleton]%elem_of_app Hhs; [auto|].
        subst s. lia.
  - split.
    + intros s [Hs|Hs%list_elem_of_singleton]%elem_of_app Hhs; [auto|].
      subst s. congruence.
    + intros serverID Hnin. apply Hother.
      by rewrite filter_app, filter_cons, decide_False, filter_nil, app_nil_r
        in Hnin by congruence.
    + by rewrite wrr_total_snoc, Hh.
    + destruct (loop_selected st) as [sel|].
      * destruct Hsel as (Hm & Hin & Hhsel & Hpos & Hall).
        split_and!; [done| |done|done|].
        { rewrite elem_of_app. auto. }
        intros s [Hs|Hs%list_elem_of_singleton]%elem_of_app Hhs; [auto|].
        subst s. congruence.
      * destruct Hsel as (Hm & Hall). split; [done|].
        intros s [Hs|Hs%list_elem_of_singleton]%elem_of_app Hhs; [auto|].
        subst s. congruence.
Qed.

Lemma wrr_fold_inv wrr1 seen servers st :
  NoDup (ID <$> (seen ++ servers)) →
  wrr_inv wrr1 seen st →
  wrr_inv wrr1 (seen ++ servers) (foldl (wrr_step (weights wrr1)) st servers).
Proof.
  revert seen st. induction servers as [|server servers IH];
    intros seen st Hnd Hinv.
  { by rewrite app_nil_r. }
  replace (seen ++ server :: servers) with ((seen ++ [server]) ++ servers)
    in * by (by rewrite <-app_assoc).
  cbn [foldl]. apply IH; [done|]. apply wrr_step_inv; [|done].
  rewrite fmap_app in Hnd. by apply NoDup_app in Hnd as (? & _ & _).
Qed.

Lemma wrr_prepare_weights wrr servers serverID w :
  weights wrr !! serverID = Some w →
  weights (wrr_prepare wrr servers) !! serverID = Some w ∧
  current (wrr_prepare wrr servers) !! serverID = current wrr !! serverID.
Proof.
  unfold wrr_prepare. revert wrr.
  induction servers as [|server servers IH]; intros wrr Hw; [done|].
  cbn [foldl]. unfold wrr_init at 2 4. case_decide as Hsome.
  - by apply IH.
  - assert (ID server ≠ serverID) as Hne.
    { intros Heq. apply Hsome. rewrite Heq. eauto. }
    destruct (IH (mkWeightedRoundRobinStrategy
                    (<[ID server := Weight server]> (weights wrr))
                    (<[ID server := 0]> (current wrr)))) as [IH1 IH2].
    { simpl. by rewrite lookup_insert_ne. }
    split; [done|]. rewrite IH2. simpl. by rewrite lookup_insert_ne.
Qed.

(** X18.  [WeightedRoundRobinStrategy.Select], on servers with distinct
    IDs: a weight once recorded for an ID is kept, whatever [Weight] the
    server shows later; every healthy server has its weight added to its
    current weight; the server returned is a healthy one whose current
    weight is then the greatest and above -1, and the total weight of the
    healthy servers is taken off it; nil is returned only when no healthy
    server gets above -1; the entries of the other IDs are untouched. *)
Theorem WeightedRoundRobinStrategy_Select_spec wrr servers :
  NoDup (ID <$> servers) →
  let wrr1 := wrr_prepare wrr servers in
  let wrr' := (WeightedRoundRobinStrategy_Select wrr servers).2 in
  weights wrr' = weights wrr1 ∧
  (∀ serverID w, weights wrr !! serverID = Some w →
                 weights wrr' !! serverID = Some w) ∧
  (∀ serverID,
     serverID ∉ ID <$> filter (λ server, Healthy server = true) servers →
     current wrr' !! serverID = current wrr1 !! serverID) ∧
  match (WeightedRoundRobinStrategy_Select wrr servers).1 with
  | Some selected =>
      selected ∈ servers ∧ Healthy selected = true ∧
      -1 < wrr_score wrr1 selected ∧
      (∀ server, server ∈ servers → Healthy server = true →
                 wrr_score wrr1 server ≤ wrr_score wrr1 selected) ∧
      current wrr' !! ID selected =
        Some (wrap_int64 (wrr_score wrr1 selected - wrr_total wrr1 servers)) ∧
      (∀ server, server ∈ servers → Healthy server = true →
                 server ≠ selected →
                 current wrr' !! ID server = Some (wrr_score wrr1 server))
  | None =>
      ∀ server, server ∈ servers → Healthy server = true →
                wrr_score wrr1 server ≤ -1 ∧
                current wrr' !! ID server = Some (wrr_score wrr1 server)
  end.
Proof.
  intros Hnd wrr1 wrr'. subst wrr'.
  unfold WeightedRoundRobinStrategy_Select. fold wrr1.
  destruct (decide (length servers = 0%nat)) as [Hz|Hnz].
  { apply nil_length_inv in Hz. subst servers. simpl.
    split_and!; try done. by intros server ?%not_elem_of_nil. }
  pose proof (wrr_fold_inv wrr1 [] servers
                (mkWrrLoop (current wrr1) None (-1) 0) Hnd) as Hinv.
  simpl in Hinv. destruct Hinv as [Hcur Hother Htotal Hsel].
  { split; simpl; try done.
    - by intros server ?%not_elem_of_nil.
    - split; [done|]. by intros server ?%not_elem_of_nil. }
  set (st := foldl _ _ servers) in *.
  assert (∀ serverID w, weights wrr !! serverID = Some w →
            weights wrr1 !! serverID = Some w) as Hkeep.
  { intros serverID w Hw. by apply wrr_prepare_weights. }
  destruct (loop_selected st) as [selected|] eqn:Hselected; simpl.
  - destruct Hsel as (Hm & Hin & Hh & Hpos & Hall).
    split_and!; try done.
    + intros serverID Hnin. rewrite lookup_insert_ne; [by apply Hother|].
      intros <-. apply Hnin, list_elem_of_fmap_2.
      by apply list_elem_of_filter.
    + rewrite lookup_insert_eq, Hcur, Htotal by done. done.
    + intros server Hs Hhs Hne. rewrite lookup_insert_ne; [by apply Hcur|].
      intros Heq. apply Hne. symmetry. by eapply NoDup_ID_inj.
  - destruct Hsel as (Hm & Hall). split_and!; try done.
    intros server Hs Hhs. split; [by apply Hall|by apply Hcur].
Qed.

(** X19.  The first [Select] on a new weighted strategy, on servers with
    distinct IDs and weights from 0 up to the largest [int64], returns a
    healthy server of the greatest weight among the healthy servers, and
    nil only when no server is healthy. *)
Theorem WeightedRoundRobinStrategy_first_Select servers :
  NoDup (ID <$> servers) →
  Forall (λ server, 0 ≤ Weight server < 2 ^ 63) servers →
  match (WeightedRoundRobinStrategy_Select NewWeightedRoundRobinStrategy
           servers).1 with
  | Some selected =>
      selected ∈ servers ∧ Healthy selected = true ∧
      ∀ server, server ∈ servers → Healthy server = true →
                Weight server ≤ Weight selected
  | None => Forall (λ server, Healthy server = false) servers
  end.
Proof.
  intros Hnd Hweights.
  assert (∀ server, server ∈ servers →
            wrr_score (wrr_prepare NewWeightedRoundRobinStrategy servers) server
            = Weight server) as Hscore.
  { intros server Hs.
    assert (∀ wrr l,
              NoDup (ID <$> l) → server ∈ l →
              weights wrr !! ID server = None →
              weights (wrr_prepare wrr l) !! ID server = Some (Weight server) ∧
              current (wrr_prepare wrr l) !! ID server = Some 0) as Hprep.
    { intros wrr l. revert wrr. induction l as [|s l IH]; intros wrr Hndl Hin Hnone.
      { by apply not_elem_of_nil in Hin. }
      rewrite fmap_cons in Hndl. apply NoDup_cons in Hndl as [Hnin Hndl].
      unfold wrr_prepare. cbn [foldl]. fold (wrr_prepare (wrr_init wrr s) l).
      apply elem_of_cons in Hin as [->|Hin].
      - unfold wrr_init. rewrite decide_False by (rewrite Hnone; by intros [??]).
        destruct (wrr_prepare_weights
                    (mkWeightedRoundRobinStrategy
                       (<[ID s := Weight s]> (weights wrr))
                       (<[ID s := 0]> (current wrr))) l (ID s) (Weight s))
          as [H1 H2]; [apply lookup_insert_eq|].
        split; [done|]. rewrite H2. apply lookup_insert_eq.
      - apply IH; [done..|]. unfold wrr_init. case_decide; [done|]. simpl.
        rewrite lookup_insert_ne; [done|].
        intros Heq. apply Hnin. rewrite Heq. by apply list_elem_of_fmap_2. }
    destruct (Hprep NewWeightedRoundRobinStrategy servers Hnd Hs) as [Hw Hc].
    { apply lookup_empty. }
    unfold wrr_score. rewrite Hw, Hc. simpl.
    rewrite Forall_forall in Hweights. apply wrap_int64_id.
    specialize (Hweights server Hs). lia. }
  unfold WeightedRoundRobinStrategy_Select.
  destruct (decide (length servers = 0%nat)) as [Hz|Hnz].
  { apply nil_length_inv in Hz. subst servers. constructor. }
  set (wrr1 := wrr_prepare NewWeightedRoundRobinStrategy servers) in *.
  pose proof (wrr_fold_inv wrr1 [] servers
                (mkWrrLoop (current wrr1) None (-1) 0) Hnd) as Hinv.
  simpl in Hinv. destruct Hinv as [_ _ _ Hsel].
  { split; simpl; try done.
    - by intros server ?%not_elem_of_nil.
    - split; [done|]. by intros server ?%not_elem_of_nil. }
  destruct (loop_selected _) as [selected|]; simpl.
  - destruct Hsel as (_ & Hin & Hh & _ & Hall). split_and!; [done..|].
    intros server Hs Hhs. rewrite <-!Hscore by done. by apply Hall.
  - destruct Hsel as [_ Hall].
    apply Forall_forall. intros server Hs.
    destruct (Healthy server) eqn:Hh; [|done].
    pose proof (Hall server Hs Hh) as Hle.
    rewrite Hscore in Hle by done.
    rewrite Forall_forall in Hweights. specialize (Hweights server Hs). lia.
Qed.

(** X17.  [RemoveServer] takes out the first server with the given ID and
    nothing else: the servers before and after it keep their order, later
    servers with the same ID stay, and when no server has the ID the slice
    is unchanged; so removing a server just added under a new ID gives the
    slice back. *)
Theorem RemoveServer_first servers1 server servers2 :
  Forall (λ s, ID s ≠ ID server) servers1 →
  RemoveServer (servers1 ++ server :: servers2) (ID server)
    = servers1 ++ servers2 ∧
  RemoveServer servers1 (ID server) = servers1 ∧
  RemoveServer (AddServer servers1 server) (ID server) = servers1.
Proof.
  intros Hother.
  assert (∀ rest, RemoveServer (servers1 ++ server :: rest) (ID server)
                  = servers1 ++ rest) as Hfirst.
  { intros rest. induction Hother as [|s l Hs _ IH]; simpl.
    - by rewrite decide_True.
    - by rewrite decide_False, IH. }
  split_and!.
  - apply Hfirst.
  - clear Hfirst. induction Hother as [|s l Hs _ IH]; simpl; [done|].
    by rewrite decide_False, IH.
  - unfold AddServer. by rewrite Hfirst, app_nil_r.
Qed.

End BalancerExtras.

(** ** The further properties on the workers and servers of [main] *)

(** task-01 goes through the first key of worker-1 above its hash. *)
Lemma GetWorker_successor_witness :
  ring (run_ops (NewConsistentHash 3) [OpAdd worker1; OpAdd worker2]) ≠ ∅ ∧
  3383084531 ∈
    sortedKeys (run_ops (NewConsistentHash 3) [OpAdd worker1; OpAdd worker2]) ∧
  hashFunction "task-01" ≤ 3383084531 ∧
  GetWorker (run_ops (NewConsistentHash 3) [OpAdd worker1; OpAdd worker2])
            "task-01"
  = Routed (workers (run_ops (NewConsistentHash 3)
                       [OpAdd worker1; OpAdd worker2])
              !! default EmptyString
                   (ring (run_ops (NewConsistentHash 3)
                            [OpAdd worker1; OpAdd worker2]) !! 3383084531)).
Proof.
  assert (ring (run_ops (NewConsistentHash 3) [OpAdd worker1; OpAdd worker2])
          ≠ ∅) as H1
    by (apply (bool_decide_unpack _); vm_compute; exact I).
  assert (3383084531 ∈
          sortedKeys (run_ops (NewConsistentHash 3)
                        [OpAdd worker1; OpAdd worker2])) as H2
    by (apply (bool_decide_unpack _); vm_compute; exact I).
  assert (hashFunction "task-01" ≤ 3383084531) as H3
    by (apply (bool_decide_unpack _); vm_compute; exact I).
  split_and!; [exact H1|exact H2|exact H3|].
  apply (GetWorker_successor 3 [OpAdd worker1; OpAdd worker2] "task-01"
           3383084531 H1 H2 H3).
  apply (proj1 (Forall_forall
                  (λ key', hashFunction "task-01" ≤ key' → 3383084531 ≤ key')
                  _)).
  apply (bool_decide_unpack _). vm_compute. exact I.
Defined.

(** worker-2 added to the ring of worker-1 and removed again. *)
Lemma RemoveWorker_AddWorker_witness :
  workers (run_ops (NewConsistentHash 3) [OpAdd worker1]) !! GetID worker2
    = None ∧
  Forall (λ h, h ∉ sortedKeys (run_ops (NewConsistentHash 3) [OpAdd worker1]))
         (vnode_hashes 3 (GetID worker2)) ∧
  RemoveWorker (AddWorker (run_ops (NewConsistentHash 3) [OpAdd worker1])
                          worker2) (GetID worker2)
  = run_ops (NewConsistentHash 3) [OpAdd worker1].
Proof.
  assert (workers (run_ops (NewConsistentHash 3) [OpAdd worker1])
            !! GetID worker2 = None) as H1 by (vm_compute; reflexivity).
  assert (Forall (λ h, h ∉ sortedKeys (run_ops (NewConsistentHash 3)
                                         [OpAdd worker1]))
                 (vnode_hashes 3 (GetID worker2))) as H2
    by (apply (bool_decide_unpack _); vm_compute; exact I).
  split_and!; [exact H1|exact H2|].
  exact (RemoveWorker_AddWorker 3 [OpAdd worker1] worker2 H1 H2).
Defined.

(** worker-1 and worker-2 added in either order. *)
Lemma built_order_irrelevant_witness :
  [worker1; worker2] ≡ₚ [worker2; worker1] ∧
  NoDup (GetID <$> [worker1; worker2]) ∧
  NoDup (all_hashes 3 [worker1; worker2]) ∧
  foldl AddWorker (NewConsistentHash 3) [worker1; worker2] =
  foldl AddWorker (NewConsistentHash 3) [worker2; worker1].
Proof.
  assert ([worker1; worker2] ≡ₚ [worker2; worker1]) as H1
    by apply Permutation_swap.
  assert (NoDup (GetID <$> [worker1; worker2])) as H2
    by (apply (bool_decide_unpack _); vm_compute; exact I).
  assert (NoDup (all_hashes 3 [worker1; worker2])) as H3
    by (apply (bool_decide_unpack _); vm_compute; exact I).
  split_and!; [exact H1|exact H2|exact H3|].
  exact (built_order_irrelevant 3 [worker1; worker2] [worker2; worker1]
           H1 H2 H3).
Defined.

(** worker-2 was never added to the ring of worker-1. *)
Lemma RemoveWorker_unknown_witness :
  workers (run_ops (NewConsistentHash 3) [OpAdd worker1]) !! "worker-2"%string
    = None ∧
  Forall (λ h, h ∉ sortedKeys (run_ops (NewConsistentHash 3) [OpAdd worker1]))
         (vnode_hashes 3 "worker-2") ∧
  RemoveWorker (run_ops (NewConsistentHash 3) [OpAdd worker1]) "worker-2"
  = run_ops (NewConsistentHash 3) [OpAdd worker1].
Proof.
  assert (workers (run_ops (NewConsistentHash 3) [OpAdd worker1])
            !! "worker-2"%string = None) as H1 by (vm_compute; reflexivity).
  assert (Forall (λ h, h ∉ sortedKeys (run_ops (NewConsistentHash 3)
                                         [OpAdd worker1]))
                 (vnode_hashes 3 "worker-2")) as H2
    by (apply (bool_decide_unpack _); vm_compute; exact I).
  split_and!; [exact H1|exact H2|].
  exact (RemoveWorker_unknown 3 [OpAdd worker1] "worker-2" H1 H2).
Defined.

(** worker-1 and worker-2 added once each. *)
Lemma GetWorker_fresh_not_nil_witness :
  fresh_adds (NewConsistentHash 3) [OpAdd worker1; OpAdd worker2] ∧
  (GetWorker (run_ops (NewConsistentHash 3) [OpAdd worker1; OpAdd worker2])
             "task-02" = NoWorkersAvailable ∨
   ∃ worker,
     GetWorker (run_ops (NewConsistentHash 3) [OpAdd worker1; OpAdd worker2])
               "task-02" = Routed (Some worker) ∧
     workers (run_ops (NewConsistentHash 3) [OpAdd worker1; OpAdd worker2])
       !! GetID worker = Some worker).
Proof.
  assert (fresh_adds (NewConsistentHash 3) [OpAdd worker1; OpAdd worker2])
    as H1.
  { cbn [fresh_adds]. split_and!; try exact I;
      apply (bool_decide_unpack _); vm_compute; exact I. }
  split; [exact H1|].
  exact (GetWorker_fresh_not_nil 3 [OpAdd worker1; OpAdd worker2] "task-02" H1).
Defined.

(** With both workers healthy and the stop channel open, the loop
    dispatches the hundred tasks of the full queue, whatever [select] would
    pick. *)
Lemma taskProcessor_fifo_witness :
  Forall (λ task, route store2.2 (hash full_manager) task ≠ Crashed)
         (chan_buf (taskChan full_manager)) ∧
  stopChan full_manager = false ∧
  taskProcessor (λ _, false) store2.2 full_manager =
    (route store2.2 (hash full_manager) <$> chan_buf (taskChan full_manager),
     mkWorkerManager (hash full_manager)
       (mkChan [] (chan_cap (taskChan full_manager))) (stopChan full_manager)).
Proof.
  assert (Forall (λ task, route store2.2 (hash full_manager) task ≠ Crashed)
                 (chan_buf (taskChan full_manager))) as H1.
  { apply Forall_cons. split.
    - intros Hc. vm_compute in Hc. discriminate.
    - apply Forall_replicate. intros Hc. vm_compute in Hc. discriminate. }
  split_and!; [exact H1|reflexivity|].
  destruct (taskProcessor_fifo (λ _, false) store2.2 full_manager H1)
    as [Hrun _].
  apply Hrun. left. reflexivity.
Defined.

(** The statistics of the ring of worker-1 and worker-2, read in the
    reverse order. *)
Lemma GetStats_any_order_witness :
  reverse (GetAllWorkers ring12) ≡ₚ
    GetAllWorkers (hash (mkWorkerManager
                           (run_ops (NewConsistentHash 3)
                              [OpAdd worker1; OpAdd worker2])
                           (mkChan [] 100) false)) ∧
  GetStats_of (F:=load_quotient) store2.2 (reverse (GetAllWorkers ring12)) =
  GetStats store2.2
    (mkWorkerManager (run_ops (NewConsistentHash 3)
                        [OpAdd worker1; OpAdd worker2])
                     (mkChan [] 100) false).
Proof.
  assert (reverse (GetAllWorkers ring12) ≡ₚ
          GetAllWorkers (hash (mkWorkerManager
                                 (run_ops (NewConsistentHash 3)
                                    [OpAdd worker1; OpAdd worker2])
                                 (mkChan [] 100) false))) as H1
    by apply reverse_Permutation.
  split; [exact H1|].
  exact (GetStats_any_order 3 [OpAdd worker1; OpAdd worker2] store2.2
           (mkChan [] 100) false (reverse (GetAllWorkers ring12)) H1).
Defined.

(** Three healthy servers out of four and a counter at 0: three calls go
    through servers 2, 4 and 1. *)
Lemma RoundRobin_cycle_witness :
  filter (λ server, balancer.Healthy server = true) balancer.servers_of_main
    ≠ [] ∧
  0 ≤ 0 + 1 ∧
  0 + Z.of_nat (length (filter (λ server, balancer.Healthy server = true)
                               balancer.servers_of_main)) < 2 ^ 63 ∧
  balancer.ID <$>
    rotate (Z.to_nat ((0 + 1) mod 3))
      (filter (λ server, balancer.Healthy server = true)
              balancer.servers_of_main)
    = [2; 4; 1] ∧
  (balancer.RoundRobin_calls 3 0 balancer.servers_of_main).2 = 3.
Proof.
  assert (filter (λ server, balancer.Healthy server = true)
                 balancer.servers_of_main ≠ []) as H1 by done.
  assert (0 ≤ 0 + 1) as H2 by lia.
  assert (0 + Z.of_nat (length (filter (λ server, balancer.Healthy server = true)
                                       balancer.servers_of_main)) < 2 ^ 63)
    as H3 by (vm_compute; reflexivity).
  split_and!; [exact H1|exact H2|exact H3|reflexivity|].
  destruct (RoundRobin_cycle 0 balancer.servers_of_main H1 H2 H3) as [Hc _].
  change (length (filter (λ server, balancer.Healthy server = true)
                         balancer.servers_of_main)) with 3%nat in Hc.
  by rewrite Hc.
Defined.

(** Among the healthy servers of [main], server 1 has no request in
    flight. *)
Lemma LeastConnectionsStrategy_Select_least_witness :
  Forall (λ server, balancer.Healthy server = true → 0 ≤ balancer.Active server)
         balancer.servers_of_main ∧
  match balancer.LeastConnectionsStrategy_Select balancer.servers_of_main with
  | Some server =>
      server ∈ balancer.servers_of_main ∧ balancer.Healthy server = true ∧
      ∀ server', server' ∈ balancer.servers_of_main →
                 balancer.Healthy server' = true →
                 balancer.Active server ≤ balancer.Active server'
  | None =>
      Forall (λ server, balancer.Healthy server = false)
             balancer.servers_of_main
  end.
Proof.
  assert (Forall (λ server, balancer.Healthy server = true →
                            0 ≤ balancer.Active server)
                 balancer.servers_of_main) as H1.
  { repeat constructor; simpl; intros; lia. }
  split; [exact H1|].
  exact (LeastConnectionsStrategy_Select_least balancer.servers_of_main H1).
Defined.

(** Server 5 added to the servers of [main] and removed again. *)
Lemma RemoveServer_first_witness :
  Forall (λ s, balancer.ID s ≠ balancer.ID (balancer.NewServer 5 "a" 1))
         balancer.servers_of_main ∧
  balancer.RemoveServer
    (balancer.AddServer balancer.servers_of_main (balancer.NewServer 5 "a" 1))
    (balancer.ID (balancer.NewServer 5 "a" 1))
  = balancer.servers_of_main.
Proof.
  assert (Forall (λ s, balancer.ID s ≠ balancer.ID (balancer.NewServer 5 "a" 1))
                 balancer.servers_of_main) as H1.
  { repeat constructor; simpl; lia. }
  split; [exact H1|].
  destruct (RemoveServer_first balancer.servers_of_main
              (balancer.NewServer 5 "a" 1) [] H1) as (_ & _ & Hround).
  exact Hround.
Defined.

(** The servers of [main] have distinct IDs; a new weighted strategy
    records their weights. *)
Lemma WeightedRoundRobinStrategy_Select_spec_witness :
  NoDup (balancer.ID <$> balancer.servers_of_main) ∧
  balancer.weights
    (balancer.WeightedRoundRobinStrategy_Select
       balancer.NewWeightedRoundRobinStrategy balancer.servers_of_main).2
  = balancer.weights
      (balancer.wrr_prepare balancer.NewWeightedRoundRobinStrategy
                            balancer.servers_of_main).
Proof.
  assert (NoDup (balancer.ID <$> balancer.servers_of_main)) as H1
    by (apply (bool_decide_unpack _); vm_compute; exact I).
  split; [exact H1|].
  destruct (WeightedRoundRobinStrategy_Select_spec
              balancer.NewWeightedRoundRobinStrategy
              balancer.servers_of_main H1) as [Hw _].
  exact Hw.
Defined.

(** The first weighted selection among the servers of [main]. *)
Lemma WeightedRoundRobinStrategy_first_Select_witness :
  NoDup (balancer.ID <$> balancer.servers_of_main) ∧
  Forall (λ server, 0 ≤ balancer.Weight server < 2 ^ 63)
         balancer.servers_of_main ∧
  match (balancer.WeightedRoundRobinStrategy_Select
           balancer.NewWeightedRoundRobinStrategy
           balancer.servers_of_main).1 with
  | Some selected =>
      selected ∈ balancer.servers_of_main ∧
      balancer.Healthy selected = true ∧
      ∀ server, server ∈ balancer.servers_of_main →
                balancer.Healthy server = true →
                balancer.Weight server ≤ balancer.Weight selected
  | None =>
      Forall (λ server, balancer.Healthy server = false)
             balancer.servers_of_main
  end.
Proof.
  assert (NoDup (balancer.ID <$> balancer.servers_of_main)) as H1
    by (apply (bool_decide_unpack _); vm_compute; exact I).
  assert (Forall (λ server, 0 ≤ balancer.Weight server < 2 ^ 63)
                 balancer.servers_of_main) as H2.
  { repeat constructor; simpl; lia. }
  split_and!; [exact H1|exact H2|].
  exact (WeightedRoundRobinStrategy_first_Select balancer.servers_of_main
           H1 H2).
Defined.
